(** * cfgo: layered configuration store

    A shallow embedding of the [config] type of package [cfgo] (its loader
    for [.env] files and the process environment, its read-through cache, its
    typed getters, [Set], [Has], [All], [Reload] and [AddSource]) and the
    properties of it that the specification states.

    Go strings are byte sequences: they are modelled by [string], whose
    characters are the 256 byte values.  A Go [map[string]any] is a
    [gmap string any].  The functions of Go's standard library that the
    getters and the loader call ([strings.TrimSpace], [strings.SplitN],
    [strings.Trim], [strconv.Atoi], ...) are modelled next to the code that
    uses them, after their documented behaviour. *)

From Stdlib Require Import ZArith Ascii String DecimalString DecimalPos DecimalZ.
From stdpp Require Import base gmap strings list.

Local Open Scope Z_scope.

(** ** Package [strings] of the Go standard library *)

Module strings.

(** The bytes of a string given by their codes. *)
Definition bytes (l : list nat) : string :=
  foldr (λ n s, String (ascii_of_nat n) s) EmptyString l.

Definition code (c : ascii) : Z := Z.of_nat (nat_of_ascii c).

(** [asciiSpace]: tab, line feed, vertical tab, form feed, carriage return
    and space. *)
Definition asciiSpace (c : ascii) : bool :=
  match c with
  | "009" | "010" | "011" | "012" | "013" | " " => true
  | _ => false
  end%char.

(** The UTF-8 encodings of the code points above U+007F for which
    [unicode.IsSpace] holds: U+0085, U+00A0, U+1680, U+2000..U+200A, U+2028,
    U+2029, U+202F, U+205F and U+3000. *)
Definition unicodeSpaces : list string :=
  [ bytes [194; 133]; bytes [194; 160]; bytes [225; 154; 128];
    bytes [226; 128; 128]; bytes [226; 128; 129]; bytes [226; 128; 130];
    bytes [226; 128; 131]; bytes [226; 128; 132]; bytes [226; 128; 133];
    bytes [226; 128; 134]; bytes [226; 128; 135]; bytes [226; 128; 136];
    bytes [226; 128; 137]; bytes [226; 128; 138]; bytes [226; 128; 168];
    bytes [226; 128; 169]; bytes [226; 128; 175]; bytes [226; 129; 159];
    bytes [227; 128; 128] ]%nat.

(** [HasPrefix s prefix] *)
Fixpoint HasPrefix (s prefix : string) : bool :=
  match prefix, s with
  | EmptyString, _ => true
  | String p prefix', String c s' => Ascii.eqb c p && HasPrefix s' prefix'
  | String _ _, EmptyString => false
  end.

Fixpoint drop (n : nat) (s : string) : string :=
  match n, s with
  | S n', String _ s' => drop n' s'
  | _, _ => s
  end.

(** [TrimPrefix s prefix] *)
Definition TrimPrefix (s prefix : string) : string :=
  if HasPrefix s prefix then drop (String.length prefix) s else s.

(** The number of bytes of the white space rune [s] starts with, [0] when
    it starts with none.  [toks] lists the multi-byte encodings. *)
Definition spaceWidth (toks : list string) (s : string) : nat :=
  match s with
  | EmptyString => 0%nat
  | String c _ =>
      if asciiSpace c then 1%nat
      else match List.find (HasPrefix s) toks with
           | Some t => String.length t
           | None => 0%nat
           end
  end.

Fixpoint trimLeftSpace (fuel : nat) (toks : list string) (s : string) : string :=
  match fuel with
  | O => s
  | S fuel' =>
      match spaceWidth toks s with
      | O => s
      | w => trimLeftSpace fuel' toks (drop w s)
      end
  end.

(** [TrimSpace s]: [s] without its leading and trailing white space, as
    [unicode.IsSpace] defines it.  The trailing runes are found on the
    reversed string, against the reversed encodings. *)
Definition TrimSpace (s : string) : string :=
  let l := trimLeftSpace (String.length s) unicodeSpaces s in
  String.rev
    (trimLeftSpace (String.length l) (String.rev <$> unicodeSpaces) (String.rev l)).

(** [strings.SplitN(s, sep, 2)] for a separator of one byte: [s] whole when
    [sep] does not occur in it, otherwise what precedes and what follows the
    first [sep]. *)
Fixpoint cut (sep : ascii) (s : string) : option (string * string) :=
  match s with
  | EmptyString => None
  | String c s' =>
      if Ascii.eqb c sep then Some (EmptyString, s')
      else match cut sep s' with
           | Some (a, b) => Some (String c a, b)
           | None => None
           end
  end.

Definition SplitN2 (s : string) (sep : ascii) : list string :=
  match cut sep s with
  | Some (a, b) => [a; b]
  | None => [s]
  end.

(** [strings.Split(s, sep)] for a separator of one byte. *)
Fixpoint Split (s : string) (sep : ascii) : list string :=
  match s with
  | EmptyString => [EmptyString]
  | String c s' =>
      if Ascii.eqb c sep then EmptyString :: Split s' sep
      else match Split s' sep with
           | p :: ps => String c p :: ps
           | [] => [String c EmptyString]
           end
  end.

(** [strings.Trim(s, cutset)] for a cutset of ASCII bytes: every leading and
    every trailing byte of [s] that is in the cutset is removed. *)
Fixpoint inCutset (cutset : string) (c : ascii) : bool :=
  match cutset with
  | EmptyString => false
  | String x cutset' => Ascii.eqb c x || inCutset cutset' c
  end.

Fixpoint trimLeftASCII (s cutset : string) : string :=
  match s with
  | EmptyString => EmptyString
  | String c s' => if inCutset cutset c then trimLeftASCII s' cutset else s
  end.

Fixpoint trimRightASCII (s cutset : string) : string :=
  match s with
  | EmptyString => EmptyString
  | String c s' =>
      match trimRightASCII s' cutset with
      | EmptyString => if inCutset cutset c then EmptyString else String c EmptyString
      | r => String c r
      end
  end.

Definition Trim (s cutset : string) : string :=
  trimLeftASCII (trimRightASCII s cutset) cutset.

(** Two predicates for the statements about these functions. *)

(** Every byte of [s] is in the cutset. *)
Fixpoint allIn (cutset s : string) : bool :=
  match s with
  | EmptyString => true
  | String c s' => inCutset cutset c && allIn cutset s'
  end.

(** The byte [x] occurs in [s]. *)
Fixpoint occurs (x : ascii) (s : string) : bool :=
  match s with
  | EmptyString => false
  | String c s' => Ascii.eqb c x || occurs x s'
  end.

End strings.

(** ** Package [strconv] of the Go standard library *)

Module strconv.

Inductive NumError := ErrSyntax | ErrRange.

(** [strconv.IntSize], the size of an [int] in bits, on 64-bit targets. *)
Definition IntSize : Z := 64.

(** [ParseBool] accepts exactly twelve spellings. *)
Definition ParseBool (str : string) : bool * option NumError :=
  if existsb (String.eqb str) ["1"; "t"; "T"; "true"; "TRUE"; "True"] then (true, None)
  else if existsb (String.eqb str) ["0"; "f"; "F"; "false"; "FALSE"; "False"] then (false, None)
  else (false, Some ErrSyntax).

(** The spellings that [ParseBool] reads as true and as false. *)
Definition trueTokens : list string := ["1"; "t"; "T"; "true"; "TRUE"; "True"].
Definition falseTokens : list string := ["0"; "f"; "F"; "false"; "FALSE"; "False"].

Definition isDigit (c : ascii) : bool :=
  (48 <=? strings.code c) && (strings.code c <=? 57).

Definition maxUint64 : Z := 2 ^ 64 - 1.

(** The loop of [ParseUint(s, 10, bitSize)].  In base 10 every byte other
    than a digit is a syntax error; a value that leaves the range is
    reported at once, with [maxVal], whatever follows it.  [n] is a uint64:
    the addition wraps around. *)
Fixpoint parseUintLoop (maxVal : Z) (s : string) (n : Z) : Z * option NumError :=
  match s with
  | EmptyString => (n, None)
  | String c s' =>
      if isDigit c then
        let d := strings.code c - 48 in
        if n >=? maxUint64 / 10 + 1 then (maxVal, Some ErrRange)
        else
          let n10 := n * 10 in
          let n1 := (n10 + d) mod 2 ^ 64 in
          if (n1 <? n10) || (n1 >? maxVal) then (maxVal, Some ErrRange)
          else parseUintLoop maxVal s' n1
      else (0, Some ErrSyntax)
  end.

Definition ParseUint10 (s : string) (bitSize : Z) : Z * option NumError :=
  match s with
  | EmptyString => (0, Some ErrSyntax)
  | _ =>
      let bitSize := if bitSize =? 0 then IntSize else bitSize in
      parseUintLoop (2 ^ bitSize - 1) s 0
  end.

(** [ParseInt(s, 10, bitSize)]: a syntax error gives [0]; a value out of
    range gives the largest magnitude of its sign, with [ErrRange]. *)
Definition ParseInt10 (s : string) (bitSize : Z) : Z * option NumError :=
  match s with
  | EmptyString => (0, Some ErrSyntax)
  | String c0 rest =>
      let neg := Ascii.eqb c0 "-" in
      let s1 := if Ascii.eqb c0 "+" || neg then rest else s in
      match ParseUint10 s1 bitSize with
      | (_, Some ErrSyntax) => (0, Some ErrSyntax)
      | (un, _) =>
          let bitSize := if bitSize =? 0 then IntSize else bitSize in
          let cutoff := 2 ^ (bitSize - 1) in
          if negb neg && (un >=? cutoff) then (cutoff - 1, Some ErrRange)
          else if neg && (un >? cutoff) then (- cutoff, Some ErrRange)
          else (if neg then - un else un, None)
      end
  end.

(** The fast path of [Atoi]: the digits of a string too short to overflow. *)
Fixpoint atoiLoop (s : string) (n : Z) : Z * option NumError :=
  match s with
  | EmptyString => (n, None)
  | String ch s' =>
      if isDigit ch then atoiLoop s' (n * 10 + (strings.code ch - 48))
      else (0, Some ErrSyntax)
  end.

Definition Atoi (s : string) : Z * option NumError :=
  let sLen := Z.of_nat (String.length s) in
  if ((IntSize =? 32) && (0 <? sLen) && (sLen <? 10))
     || ((IntSize =? 64) && (0 <? sLen) && (sLen <? 19)) then
    match s with
    | EmptyString => (0, Some ErrSyntax)
    | String c0 rest =>
        let signed := Ascii.eqb c0 "-" || Ascii.eqb c0 "+" in
        let s1 := if signed then rest else s in
        if signed && (Z.of_nat (String.length s1) <? 1) then (0, Some ErrSyntax)
        else
          match atoiLoop s1 0 with
          | (n, None) => (if Ascii.eqb c0 "-" then - n else n, None)
          | r => r
          end
    end
  else ParseInt10 s 0.

End strconv.

(** ** Errors, and the parsers left open *)

(** A Go [error], by its message. *)
Definition error := string.

(** The two parsers of the standard library that the getters call and that
    are not modelled here, [strconv.ParseFloat] and [time.ParseDuration]: they
    are parameters of the development, with the type [float64] and its zero.
    A [time.Duration] is a number of nanoseconds. *)
Class GoLib := {
  float64 : Type;
  float64_zero : float64;
  ParseFloat : string → Z → float64 * option strconv.NumError;
  ParseDuration : string → Z * option error;
}.

(** ** Values of type [any] *)

(** A value of the empty interface: [nil], a string, an [int], a [bool], or a
    value of any other dynamic type, kept with the text that the verb [%v]
    prints for it. *)
Inductive any :=
  | Nil
  | Str (s : string)
  | Int (i : Z)
  | Bool (b : bool)
  | Opaque (repr : string).

Global Instance any_eq_dec : EqDecision any.
Proof. solve_decision. Defined.

(** [fmt.Sprintf("%v", v)] *)
Definition Sprintv (v : any) : string :=
  match v with
  | Nil => "<nil>"
  | Str s => s
  | Int i => NilZero.string_of_int (Z.to_int i)
  | Bool b => if b then "true" else "false"
  | Opaque repr => repr
  end.

(** ** The operating system, as the loader sees it *)

(** [Open name] is [None] when [os.Open] fails and otherwise the lines that the
    [bufio.Scanner] yields, in order, until [Scan] returns false; [Getenv] is
    [os.Getenv] and [Environ] is [os.Environ()]. *)
Record OS := {
  Open : string → option (list string);
  Getenv : string → string;
  Environ : list string;
}.

(** ** The store *)

Section Store.
Context {W : Type}.

(** A [ConfigSource]: its [Load] runs in the world [W] of the application,
    which it may change, and returns a map and an error, as in Go.  The
    store never calls [Watch]. *)
Record ConfigSource := {
  Name : string;
  Load : W → gmap string any * option error * W;
}.

Record config := {
  data : gmap string any;
  sources : list ConfigSource;
  cache : gmap string any;
}.

Definition with_data (d : gmap string any) (c : config) : config :=
  {| data := d; sources := sources c; cache := cache c |}.

Definition with_cache (h : gmap string any) (c : config) : config :=
  {| data := data c; sources := sources c; cache := h |}.

(** The cutset of [strings.Trim(value, ...)]: a double and a single quote. *)
Definition quotes : string := strings.bytes [34; 39]%nat.

(** The body of the loop of [loadEnvFile], for one line of the file. *)
Definition loadEnvLine (c : config) (text : string) : config :=
  let line := strings.TrimSpace text in
  if String.eqb line EmptyString || strings.HasPrefix line "#" then c
  else
    match strings.SplitN2 line "=" with
    | [p0; p1] =>
        let key := strings.TrimSpace p0 in
        let value := strings.TrimSpace p1 in
        let value := strings.Trim value quotes in
        with_data (<[key := Str value]> (data c)) c
    | _ => c
    end.

Definition loadEnvFile (os : OS) (filename : string) (c : config) : config :=
  match Open os filename with
  | None => c
  | Some lines => foldl loadEnvLine c lines
  end.

Definition loadEnvFiles (os : OS) (c : config) : config :=
  let c := loadEnvFile os ".env" c in
  let c := loadEnvFile os ".local.env" c in
  let env := Getenv os "APP_ENV" in
  let env := if String.eqb env EmptyString then "dev" else env in
  let envFile := "." +:+ env +:+ ".env" in
  loadEnvFile os envFile c.

Definition loadSystemEnv (os : OS) (c : config) : config :=
  foldl (λ c env,
           match strings.SplitN2 env "=" with
           | [p0; p1] => with_data (<[p0 := Str p1]> (data c)) c
           | _ => c
           end) c (Environ os).

Definition New (os : OS) : config :=
  let c := {| data := ∅; sources := []; cache := ∅ |} in
  let c := loadEnvFiles os c in
  loadSystemEnv os c.

(** [Get] returns the value and the store, whose cache it may have
    filled. *)
Definition Get (key : string) (c : config) : any * config :=
  match cache c !! key with
  | Some val => (val, c)
  | None =>
      match data c !! key with
      | Some val => (val, with_cache (<[key := val]> (cache c)) c)
      | None => (Nil, c)
      end
  end.

Definition GetString (key : string) (c : config) : string * config :=
  let '(val, c) := Get key c in
  match val with
  | Nil => (EmptyString, c)
  | Str v => (v, c)
  | v => (Sprintv v, c)
  end.

Definition GetInt (key : string) (c : config) : Z * config :=
  let '(val, c) := GetString key c in
  if String.eqb val EmptyString then (0, c)
  else (fst (strconv.Atoi val), c).

Definition GetInt64 (key : string) (c : config) : Z * config :=
  let '(val, c) := GetString key c in
  if String.eqb val EmptyString then (0, c)
  else (fst (strconv.ParseInt10 val 64), c).

Definition GetFloat64 `{GoLib} (key : string) (c : config) : float64 * config :=
  let '(val, c) := GetString key c in
  if String.eqb val EmptyString then (float64_zero, c)
  else (fst (ParseFloat val 64), c).

Definition GetBool (key : string) (c : config) : bool * config :=
  let '(val, c) := GetString key c in
  if String.eqb val EmptyString then (false, c)
  else (fst (strconv.ParseBool val), c).

Definition GetDuration `{GoLib} (key : string) (c : config) : Z * config :=
  let '(val, c) := GetString key c in
  if String.eqb val EmptyString then (0, c)
  else (fst (ParseDuration val), c).

Definition GetStringSlice (key : string) (c : config) : list string * config :=
  let '(val, c) := GetString key c in
  if String.eqb val EmptyString then ([], c)
  else
    let parts := strings.Split val "," in
    (foldl (λ result part,
              let trimmed := strings.TrimSpace part in
              if String.eqb trimmed EmptyString then result
              else result ++ [trimmed]) [] parts, c).

Definition GetStringMap (key : string) (c : config) : gmap string any :=
  let prefix := key +:+ "." in
  map_fold (λ k v result,
              if strings.HasPrefix k prefix
              then <[strings.TrimPrefix k prefix := v]> result
              else result) ∅ (data c).

Definition Set_ (key : string) (value : any) (c : config) : config :=
  let c := with_data (<[key := value]> (data c)) c in
  with_cache (delete key (cache c)) c.

Definition Has (key : string) (c : config) : bool :=
  match data c !! key with
  | Some _ => true
  | None => false
  end.

Definition All (c : config) : gmap string any :=
  map_fold (λ k v result, <[k := v]> result) ∅ (data c).

(** The loop of [Reload] over the registered sources. *)
Fixpoint loadSources (ss : list ConfigSource) (c : config) (w : W)
  : option error * config * W :=
  match ss with
  | [] => (None, c, w)
  | source :: ss' =>
      let '(d, err, w) := Load source w in
      match err with
      | Some e => (Some e, c, w)
      | None =>
          loadSources ss'
            (with_data (map_fold (λ k v m, <[k := v]> m) (data c) d) c) w
      end
  end.

Definition Reload (os : OS) (c : config) (w : W) : option error * config * W :=
  let c := with_cache ∅ c in
  let c := with_data ∅ c in
  let c := loadEnvFiles os c in
  let c := loadSystemEnv os c in
  loadSources (sources c) c w.

Definition AddSource (source : ConfigSource) (c : config) : config :=
  {| data := data c; sources := sources c ++ [source]; cache := cache c |}.

End Store.

Arguments ConfigSource : clear implicits.
Arguments config : clear implicits.

(** ** Layers *)

(** What one layer holds is what its loader puts into an empty store. *)
Definition blank : config unit := {| data := ∅; sources := []; cache := ∅ |}.

Definition fileLayer (os : OS) (filename : string) : gmap string any :=
  data (loadEnvFile os filename blank).

Definition envLayer (os : OS) : gmap string any :=
  data (loadSystemEnv os blank).

(** The name of the third file: [APP_ENV] between a dot and [.env], and [dev]
    for it when the variable is unset or empty. *)
Definition envFileName (os : OS) : string :=
  "." +:+ (if String.eqb (Getenv os "APP_ENV") EmptyString then "dev"
           else Getenv os "APP_ENV") +:+ ".env".

(** The layers that do not come from a source, lowest precedence first. *)
Definition baseLayers (os : OS) : list (gmap string any) :=
  [ fileLayer os ".env"; fileLayer os ".local.env";
    fileLayer os (envFileName os); envLayer os ].

(** Layers merged one after the other, each over what precedes it. *)
Definition merge (layers : list (gmap string any)) : gmap string any :=
  foldl (λ acc m, m ∪ acc) ∅ layers.

(** [v] is the value of [k] in the last of the layers that have [k]. *)
Definition topLayer (layers : list (gmap string any)) (k : string) (v : any) : Prop :=
  ∃ i m, layers !! i = Some m ∧ m !! k = Some v
         ∧ ∀ j m', (i < j)%nat → layers !! j = Some m' → m' !! k = None.

(** [loadedOK ss w ds w']: called one after the other from the world [w], the
    sources [ss] all load without error; they return the maps [ds], in this
    order, and leave the world [w']. *)
Inductive loadedOK {W : Type}
  : list (ConfigSource W) → W → list (gmap string any) → W → Prop :=
  | loadedOK_nil w : loadedOK [] w [] w
  | loadedOK_cons s ss w d w1 ds w2 :
      Load s w = (d, None, w1) →
      loadedOK ss w1 ds w2 →
      loadedOK (s :: ss) w (d :: ds) w2.

(** The cache holds nothing that the mapping does not hold. *)
Definition coherent {W : Type} (c : config W) : Prop := cache c ⊆ data c.

(** ** Sequences of calls on one store *)

Section Calls.
Context `{GoLib} {W : Type}.

(** One call of a method of the store.  [OpReload] carries the operating
    system as it is when the call is made: files and environment variables
    may change between calls. *)
Inductive op :=
  | OpGet (key : string)
  | OpGetString (key : string)
  | OpGetInt (key : string)
  | OpGetInt64 (key : string)
  | OpGetFloat64 (key : string)
  | OpGetBool (key : string)
  | OpGetDuration (key : string)
  | OpGetStringSlice (key : string)
  | OpGetStringMap (key : string)
  | OpSet (key : string) (value : any)
  | OpHas (key : string)
  | OpAll
  | OpReload (os : OS)
  | OpAddSource (source : ConfigSource W).

(** The store and the world after the call; what the call returns is
    dropped. *)
Definition exec (o : op) (st : config W * W) : config W * W :=
  let '(c, w) := st in
  match o with
  | OpGet key => (snd (Get key c), w)
  | OpGetString key => (snd (GetString key c), w)
  | OpGetInt key => (snd (GetInt key c), w)
  | OpGetInt64 key => (snd (GetInt64 key c), w)
  | OpGetFloat64 key => (snd (GetFloat64 key c), w)
  | OpGetBool key => (snd (GetBool key c), w)
  | OpGetDuration key => (snd (GetDuration key c), w)
  | OpGetStringSlice key => (snd (GetStringSlice key c), w)
  | OpGetStringMap key => let _ := GetStringMap key c in (c, w)
  | OpSet key value => (Set_ key value c, w)
  | OpHas key => let _ := Has key c in (c, w)
  | OpAll => let _ := All c in (c, w)
  | OpReload os => let '(_, c', w') := Reload os c w in (c', w')
  | OpAddSource source => (AddSource source c, w)
  end.

(** The key that a call reads through [Get], if it does. *)
Definition reads (o : op) : option string :=
  match o with
  | OpGet key | OpGetString key | OpGetInt key | OpGetInt64 key
  | OpGetFloat64 key | OpGetBool key | OpGetDuration key
  | OpGetStringSlice key => Some key
  | _ => None
  end.

Definition run (ops : list op) (st : config W * W) : config W * W :=
  foldl (λ st o, exec o st) st ops.

End Calls.

(** ** Goroutines sharing one store

    [Get], [Has] and [Set] as sequences of atomic steps on the shared maps,
    between the acquisition and the release of [c.mu].  A step of a goroutine
    that cannot take the lock is not enabled.  A reader takes the lock whenever
    no writer holds it: [sync.RWMutex] also holds a new reader back while a
    writer waits, so that its schedules are among those of this model. *)

Module Concurrent.

Inductive call :=
  | CallGet (key : string)
  | CallHas (key : string)
  | CallSet (key : string) (value : any).

(** Where a goroutine stands in its call; the constructor names what its
    next step does. *)
Inductive pc :=
  | Acquire                      (* c.mu.RLock() or c.mu.Lock() *)
  | GetReadCache                 (* val, ok := c.cache[key] *)
  | GetReadData                  (* val, ok := c.data[key] *)
  | GetWriteCache (val : any)    (* c.cache[key] = val *)
  | ReleaseR (ret : any)         (* c.mu.RUnlock(), deferred *)
  | HasReadData                  (* _, ok := c.data[key] *)
  | SetWriteData                 (* c.data[key] = value *)
  | SetDeleteCache               (* delete(c.cache, key) *)
  | ReleaseW                     (* c.mu.Unlock(), deferred *)
  | Returned (ret : any).

(** A [sync.RWMutex]: whether a writer holds it, and how many readers do. *)
Record RWMutex := { writer : bool; readers : nat }.

Record shared := {
  mu : RWMutex;
  data : gmap string any;
  cache : gmap string any;
}.

Record goroutine := { running : call; at_ : pc }.

Definition RLock (m : RWMutex) : option RWMutex :=
  if writer m then None
  else Some {| writer := false; readers := S (readers m) |}.

Definition RUnlock (m : RWMutex) : RWMutex :=
  {| writer := writer m; readers := Nat.pred (readers m) |}.

Definition Lock (m : RWMutex) : option RWMutex :=
  if writer m then None
  else match readers m with
       | O => Some {| writer := true; readers := O |}
       | S _ => None
       end.

Definition Unlock (m : RWMutex) : RWMutex :=
  {| writer := false; readers := readers m |}.

Definition with_mu (m : RWMutex) (s : shared) : shared :=
  {| mu := m; data := data s; cache := cache s |}.

(** One atomic step of a goroutine; [None] when it is blocked on the lock
    or has returned. *)
Definition step1 (g : goroutine) (s : shared) : option (goroutine * shared) :=
  let goto p s := Some ({| running := running g; at_ := p |}, s) in
  match running g, at_ g with
  | CallGet _, Acquire => m ← RLock (mu s); goto GetReadCache (with_mu m s)
  | CallHas _, Acquire => m ← RLock (mu s); goto HasReadData (with_mu m s)
  | CallSet _ _, Acquire => m ← Lock (mu s); goto SetWriteData (with_mu m s)
  | CallGet key, GetReadCache =>
      match cache s !! key with
      | Some val => goto (ReleaseR val) s
      | None => goto GetReadData s
      end
  | CallGet key, GetReadData =>
      match data s !! key with
      | Some val => goto (GetWriteCache val) s
      | None => goto (ReleaseR Nil) s
      end
  | CallGet key, GetWriteCache val =>
      goto (ReleaseR val)
        {| mu := mu s; data := data s; cache := <[key := val]> (cache s) |}
  | CallHas key, HasReadData =>
      goto (ReleaseR (Bool (bool_decide (is_Some (data s !! key))))) s
  | _, ReleaseR ret => goto (Returned ret) (with_mu (RUnlock (mu s)) s)
  | CallSet key value, SetWriteData =>
      goto SetDeleteCache
        {| mu := mu s; data := <[key := value]> (data s); cache := cache s |}
  | CallSet key _, SetDeleteCache =>
      goto ReleaseW
        {| mu := mu s; data := data s; cache := delete key (cache s) |}
  | CallSet _ _, ReleaseW => goto (Returned Nil) (with_mu (Unlock (mu s)) s)
  | _, _ => None
  end.

(** Goroutine [i] of the pool takes a step. *)
Definition step (i : nat) (st : shared * list goroutine)
  : option (shared * list goroutine) :=
  let '(s, gs) := st in
  g ← gs !! i;
  '(g', s') ← step1 g s;
  Some (s', <[i := g']> gs).

(** A schedule names the goroutine that steps next, step after step. *)
Fixpoint schedule (order : list nat) (st : shared * list goroutine)
  : option (shared * list goroutine) :=
  match order with
  | [] => Some st
  | i :: order' => st' ← step i st; schedule order' st'
  end.

(** The next step of the goroutine writes to [c.cache]. *)
Definition mutatesCache (g : goroutine) : bool :=
  match at_ g with
  | GetWriteCache _ | SetDeleteCache => true
  | _ => false
  end.

(** The next step of the goroutine writes to [c.data]. *)
Definition mutatesData (g : goroutine) : bool :=
  match at_ g with
  | SetWriteData => true
  | _ => false
  end.

(** The goroutine holds [c.mu], for reading or for writing. *)
Definition holdsR (g : goroutine) : bool :=
  match at_ g with
  | GetReadCache | GetReadData | GetWriteCache _ | HasReadData | ReleaseR _ => true
  | _ => false
  end.

Definition holdsW (g : goroutine) : bool :=
  match at_ g with
  | SetWriteData | SetDeleteCache | ReleaseW => true
  | _ => false
  end.

Definition spawn (calls : list call) : list goroutine :=
  (λ c, {| running := c; at_ := Acquire |}) <$> calls.

Definition unlocked : RWMutex := {| writer := false; readers := O |}.

(** How many goroutines of the pool satisfy [f]. *)
Definition b2n (b : bool) : nat := if b then 1%nat else 0%nat.

Fixpoint countb (f : goroutine → bool) (gs : list goroutine) : nat :=
  match gs with
  | [] => 0
  | g :: gs' => b2n (f g) + countb f gs'
  end%nat.

(** What the lock knows of the pool: [readers] counts the goroutines that
    hold it for reading, and [writer] is set when one goroutine holds it
    for writing, and then no goroutine holds it for reading. *)
Definition lockInv (st : shared * list goroutine) : Prop :=
  readers (mu st.1) = countb holdsR st.2
  ∧ if writer (mu st.1)
    then countb holdsW st.2 = 1%nat ∧ countb holdsR st.2 = 0%nat
    else countb holdsW st.2 = 0%nat.

(** A store with one entry, [k], that no call has read yet. *)
Definition unread : shared :=
  {| mu := unlocked; data := {["k" := Str "v"]}; cache := ∅ |}.

End Concurrent.

(** ** Stores and files used as examples *)

(** No file can be opened and the environment is empty. *)
Definition bareOS : OS :=
  {| Open := λ _, None; Getenv := λ _, EmptyString; Environ := [] |}.

(** A double quote and a single quote. *)
Definition dquote : string := strings.bytes [34]%nat.
Definition squote : string := strings.bytes [39]%nat.

(** A working directory whose [.env] holds three assignments, with values in
    two layers of double quotes, in a single quote around double quotes, and in
    one layer of double quotes. *)
Definition quotedOS : OS :=
  {| Open := λ name,
       if String.eqb name ".env"
       then Some [ "A=" +:+ dquote +:+ dquote +:+ "x" +:+ dquote +:+ dquote;
                   "B = " +:+ squote +:+ dquote +:+ "x" +:+ dquote +:+ squote;
                   "C=" +:+ dquote +:+ "x y" +:+ dquote ]
       else None;
     Getenv := λ _, EmptyString;
     Environ := [] |}.

(** An instance of the two parsers that are left open: one that rejects
    every string. *)
Definition rejectingLib : GoLib :=
  {| float64 := Z;
     float64_zero := 0;
     ParseFloat := λ _ _, (0, Some strconv.ErrSyntax);
     ParseDuration := λ _, (0, Some "time: invalid duration") |}.

(** The store that [New] builds when there is no file and no variable. *)
Definition bare : config unit := New bareOS.

(** The working directory and the environment of the test [TestLoadEnvFiles],
    with one more variable, [LOCAL_KEY], in the environment. *)
Definition layeredOS : OS :=
  {| Open := λ name,
       if String.eqb name ".env"
       then Some ["BASE_KEY=base_value"; "SHARED_KEY=base_shared"]
       else if String.eqb name ".local.env"
       then Some ["LOCAL_KEY=local_value"; "SHARED_KEY=local_shared"]
       else if String.eqb name ".dev.env"
       then Some ["DEV_KEY=dev_value"; "SHARED_KEY=dev_shared"]
       else None;
     Getenv := λ name,
       if String.eqb name "APP_ENV" then "dev"
       else if String.eqb name "LOCAL_KEY" then "from_environment"
       else EmptyString;
     Environ := ["APP_ENV=dev"; "LOCAL_KEY=from_environment"] |}.

(** A source that writes its name to a log, the world here, each time it is
    loaded, and returns the given map and error. *)
Definition logging (name : string) (d : gmap string any) (err : option error)
  : ConfigSource (list string) :=
  {| Name := name; Load := λ log, (d, err, log ++ [name]) |}.

(** A store with one source, which sets [SHARED_KEY]. *)
Definition withRemote : config (list string) :=
  AddSource (logging "remote" {["SHARED_KEY" := Int 7]} None) (New layeredOS).

(** A store with three sources, of which the second fails. *)
Definition withFailing : config (list string) :=
  AddSource (logging "c" {["C" := Str "3"]} None)
    (AddSource (logging "b" ∅ (Some "boom"))
       (AddSource (logging "a" {["A" := Str "1"]} None) (New layeredOS))).

(** The store of the test [TestGetMethods]. *)
Definition testStore : config unit :=
  foldr (λ '(k, v) c, Set_ k (Str v) c) bare
    [ ("string_key", "test_string"); ("int_key", "42");
      ("int64_key", "9223372036854775807"); ("bool_key_true", "true");
      ("bool_key_false", "false"); ("slice_key", "item1, item2, item3");
      ("map_prefix.key1", "value1"); ("map_prefix.key2", "value2");
      ("empty_key", EmptyString) ].

(** The source of the package's tests, [MockConfigSource]: its [Load] returns
    the map it was made with and no error, and changes nothing. *)
Definition NewMockConfigSource {W : Type} (name : string) (d : gmap string any)
  : ConfigSource W :=
  {| Name := name; Load := λ w, (d, None, w) |}.

(** The key that a line of a file assigns, when it is an assignment: the
    tests of the loop of [loadEnvFile], without the store. *)
Definition lineKey (text : string) : option string :=
  let line := strings.TrimSpace text in
  if String.eqb line EmptyString || strings.HasPrefix line "#" then None
  else
    match strings.SplitN2 line "=" with
    | [p0; _] => Some (strings.TrimSpace p0)
    | _ => None
    end.

(** The values of an [int64]. *)
Definition inInt64 (z : Z) : Prop := - 2 ^ 63 ≤ z ≤ 2 ^ 63 - 1.

(** The store of the test [TestAddSource]: the mock source is registered and
    not yet loaded. *)
Definition withMock : config unit :=
  AddSource (NewMockConfigSource "mock" {["mock_key" := Str "mock_value"]}) bare.

(** An environment whose variable [A] has spaces and quotes in its value. *)
Definition spacedOS : OS :=
  {| Open := λ _, None;
     Getenv := λ _, EmptyString;
     Environ := ["A= " +:+ dquote +:+ "x" +:+ dquote +:+ " "; "B=1"] |}.


(** The number that the digits [d] denote when they follow the digits of
    [n]: each digit multiplies what precedes it by ten, as the loops of
    [Atoi] and [ParseUint] do. *)
Fixpoint horner (d : Decimal.uint) (n : Z) : Z :=
  match d with
  | Decimal.Nil => n
  | Decimal.D0 l => horner l (n * 10 + 0)
  | Decimal.D1 l => horner l (n * 10 + 1)
  | Decimal.D2 l => horner l (n * 10 + 2)
  | Decimal.D3 l => horner l (n * 10 + 3)
  | Decimal.D4 l => horner l (n * 10 + 4)
  | Decimal.D5 l => horner l (n * 10 + 5)
  | Decimal.D6 l => horner l (n * 10 + 6)
  | Decimal.D7 l => horner l (n * 10 + 7)
  | Decimal.D8 l => horner l (n * 10 + 8)
  | Decimal.D9 l => horner l (n * 10 + 9)
  end.

(** The calls that take the lock for reading: every method but [Set],
    [Reload] and [AddSource]. *)
Definition readOnly {W : Type} (o : op (W := W)) : bool :=
  match o with
  | OpSet _ _ | OpReload _ | OpAddSource _ => false
  | _ => true
  end.

(** * Properties *)

(** ** Strings *)

Module strings_facts.
Import strings.

Lemma append_nil_l (s : string) : EmptyString +:+ s = s.
Proof. reflexivity. Qed.

Lemma append_cons c (a b : string) : String c a +:+ b = String c (a +:+ b).
Proof. reflexivity. Qed.

Lemma append_nil_r (s : string) : s +:+ EmptyString = s.
Proof. induction s as [|c s IH]; [done|]. by rewrite append_cons, IH. Qed.

Lemma append_assoc (a b c : string) : (a +:+ b) +:+ c = a +:+ (b +:+ c).
Proof. induction a as [|x a IH]; [done|]. by rewrite !append_cons, IH. Qed.

Lemma trimLeftASCII_split s cutset :
  ∃ l, allIn cutset l = true ∧ s = l +:+ trimLeftASCII s cutset.
Proof.
  induction s as [|c s [l [Hl Hs]]]; cbn.
  - by exists EmptyString.
  - destruct (inCutset cutset c) eqn:Hc.
    + exists (String c l). cbn. rewrite Hc, Hl, append_cons, <- Hs. done.
    + by exists EmptyString.
Qed.

Lemma trimRightASCII_split s cutset :
  ∃ r, allIn cutset r = true ∧ s = trimRightASCII s cutset +:+ r.
Proof.
  induction s as [|c s [r [Hr Hs]]]; cbn.
  - by exists EmptyString.
  - destruct (trimRightASCII s cutset) as [|c' t] eqn:Ht.
    + rewrite append_nil_l in Hs. subst s. destruct (inCutset cutset c) eqn:Hc.
      * exists (String c r). cbn. by rewrite Hc, Hr.
      * by exists r.
    + exists r. split; [done|]. by rewrite append_cons, <- Hs.
Qed.

Lemma trimLeftASCII_idem s cutset :
  trimLeftASCII (trimLeftASCII s cutset) cutset = trimLeftASCII s cutset.
Proof.
  induction s as [|c s IH]; [done|]. cbn.
  destruct (inCutset cutset c) eqn:Hc; [done|]. cbn. by rewrite Hc.
Qed.

Lemma trimRightASCII_cons c s cutset :
  trimRightASCII (String c s) cutset =
  match trimRightASCII s cutset with
  | EmptyString => if inCutset cutset c then EmptyString else String c EmptyString
  | r => String c r
  end.
Proof. reflexivity. Qed.

Lemma trimRightASCII_idem s cutset :
  trimRightASCII (trimRightASCII s cutset) cutset = trimRightASCII s cutset.
Proof.
  induction s as [|c s IH]; [done|]. rewrite trimRightASCII_cons.
  destruct (trimRightASCII s cutset) as [|c' t] eqn:Ht.
  - destruct (inCutset cutset c) eqn:Hc; [done|]. cbn. by rewrite Hc.
  - rewrite trimRightASCII_cons, IH. done.
Qed.

(** Trimming on the left keeps a string trimmed on the right. *)
Lemma trimLeftASCII_keeps_right s cutset :
  trimRightASCII s cutset = s →
  trimRightASCII (trimLeftASCII s cutset) cutset = trimLeftASCII s cutset.
Proof.
  induction s as [|c s IH]; [done|]. intros Hs. cbn.
  destruct (inCutset cutset c) eqn:Hc; [|done].
  apply IH. cbn in Hs. rewrite Hc in Hs.
  destruct (trimRightASCII s cutset) as [|c' t]; [done|]. by injection Hs.
Qed.

(** [Trim] removes a run of cutset bytes on each side, and what it returns
    starts and ends with none. *)
Lemma Trim_split s cutset :
  ∃ l r, allIn cutset l = true ∧ allIn cutset r = true
         ∧ s = l +:+ Trim s cutset +:+ r.
Proof.
  unfold Trim.
  destruct (trimRightASCII_split s cutset) as [r [Hr Hs]].
  destruct (trimLeftASCII_split (trimRightASCII s cutset) cutset) as [l [Hl Ht]].
  exists l, r. split_and!; [done..|].
  rewrite <- append_assoc, <- Ht. done.
Qed.

Lemma Trim_idem s cutset : Trim (Trim s cutset) cutset = Trim s cutset.
Proof.
  unfold Trim.
  rewrite (trimLeftASCII_keeps_right (trimRightASCII s cutset)),
    trimLeftASCII_idem; [done|].
  apply trimRightASCII_idem.
Qed.

Lemma Trim_trimmed_left s cutset :
  trimLeftASCII (Trim s cutset) cutset = Trim s cutset.
Proof. apply trimLeftASCII_idem. Qed.

Lemma Trim_trimmed_right s cutset :
  trimRightASCII (Trim s cutset) cutset = Trim s cutset.
Proof. unfold Trim. apply trimLeftASCII_keeps_right, trimRightASCII_idem. Qed.

End strings_facts.

(** ** Numbers and booleans *)

Module strconv_facts.
Import strconv.

Lemma existsb_eqb (s : string) (l : list string) :
  existsb (String.eqb s) l = true ↔ s ∈ l.
Proof.
  induction l as [|x l IH]; cbn.
  - split; [done|]. by intros ?%not_elem_of_nil.
  - rewrite orb_true_iff, IH, elem_of_cons, String.eqb_eq. done.
Qed.

Lemma ParseBool_true str : fst (ParseBool str) = true ↔ str ∈ trueTokens.
Proof.
  unfold ParseBool. rewrite <- existsb_eqb. fold trueTokens.
  destruct (existsb (String.eqb str) trueTokens); [done|].
  destruct (existsb _ _); cbn; split; done.
Qed.

Lemma ParseBool_error str :
  snd (ParseBool str) = Some ErrSyntax ↔ str ∉ trueTokens ++ falseTokens.
Proof.
  unfold ParseBool. rewrite elem_of_app, <- !existsb_eqb.
  fold trueTokens falseTokens.
  destruct (existsb (String.eqb str) trueTokens);
    destruct (existsb (String.eqb str) falseTokens); cbn; intuition congruence.
Qed.

Lemma atoiLoop_syntax s n v : atoiLoop s n = (v, Some ErrSyntax) → v = 0.
Proof.
  revert n. induction s as [|c s IH]; intros n; cbn; [done|].
  destruct (isDigit c); [apply IH|congruence].
Qed.

Lemma parseUintLoop_syntax maxVal s n v :
  parseUintLoop maxVal s n = (v, Some ErrSyntax) → v = 0.
Proof.
  revert n. induction s as [|c s IH]; intros n; cbn -[Z.pow Z.div]; [done|].
  destruct (isDigit c); [|congruence].
  destruct (_ >=? _); [done|]. destruct (_ || _); [done|]. apply IH.
Qed.

(** A string that is not a decimal numeral parses to [0]. *)
Lemma ParseInt10_syntax s bitSize v :
  ParseInt10 s bitSize = (v, Some ErrSyntax) → v = 0.
Proof.
  unfold ParseInt10. destruct s as [|c0 rest]; [congruence|].
  destruct (ParseUint10 _ _) as [un [[]|]]; [congruence| |];
    repeat (destruct (_ && _)); congruence.
Qed.

Lemma Atoi_syntax s v : Atoi s = (v, Some ErrSyntax) → v = 0.
Proof.
  unfold Atoi. destruct (_ || _); [|apply ParseInt10_syntax].
  destruct s as [|c0 rest]; [congruence|].
  destruct (_ && _); [congruence|].
  destruct (atoiLoop _ 0) as [n [e|]] eqn:Hl; [|congruence].
  intros [= -> ->]. by apply atoiLoop_syntax in Hl.
Qed.

End strconv_facts.

(** ** The getters and [Set] *)

Section Getters.
Context `{GoLib} {W : Type}.
Implicit Types (c : config W) (key : string).

Lemma GetString_snd key c : snd (GetString key c) = snd (Get key c).
Proof. unfold GetString. destruct (Get key c) as [[] c']; done. Qed.

(** A typed getter changes the store as [GetString] does. *)
Ltac through_GetString getter :=
  rewrite <- GetString_snd; unfold getter;
  match goal with
  | |- context [GetString ?key ?c] =>
      destruct (GetString key c) as [s c']; by destruct (String.eqb s _)
  end.

Lemma GetInt_snd key c : snd (GetInt key c) = snd (Get key c).
Proof. through_GetString (@GetInt). Qed.

Lemma GetInt64_snd key c : snd (GetInt64 key c) = snd (Get key c).
Proof. through_GetString (@GetInt64). Qed.

Lemma GetFloat64_snd key c : snd (GetFloat64 key c) = snd (Get key c).
Proof. through_GetString (@GetFloat64). Qed.

Lemma GetBool_snd key c : snd (GetBool key c) = snd (Get key c).
Proof. through_GetString (@GetBool). Qed.

Lemma GetDuration_snd key c : snd (GetDuration key c) = snd (Get key c).
Proof. through_GetString (@GetDuration). Qed.

Lemma GetStringSlice_snd key c : snd (GetStringSlice key c) = snd (Get key c).
Proof. through_GetString (@GetStringSlice). Qed.

(** What the integer getters do return when the error is dropped: zero for
    a string that is not a numeral. *)
Lemma GetInt_syntax key c :
  snd (strconv.Atoi (fst (GetString key c))) = Some strconv.ErrSyntax →
  fst (GetInt key c) = 0.
Proof.
  unfold GetInt. destruct (GetString key c) as [s c']. cbn.
  destruct (String.eqb s EmptyString); [done|].
  destruct (strconv.Atoi s) as [v e] eqn:Ha. cbn. intros ->.
  by apply strconv_facts.Atoi_syntax in Ha.
Qed.

Lemma GetInt64_syntax key c :
  snd (strconv.ParseInt10 (fst (GetString key c)) 64) = Some strconv.ErrSyntax →
  fst (GetInt64 key c) = 0.
Proof.
  unfold GetInt64. destruct (GetString key c) as [s c']. cbn.
  destruct (String.eqb s EmptyString); [done|].
  destruct (strconv.ParseInt10 s 64) as [v e] eqn:Ha. cbn. intros ->.
  by apply strconv_facts.ParseInt10_syntax in Ha.
Qed.

(** What [Get] returns when its value is [Nil], whatever the reason. *)
Lemma Get_Nil_getters key c :
  fst (Get key c) = Nil →
  fst (GetString key c) = EmptyString ∧ fst (GetInt key c) = 0
  ∧ fst (GetInt64 key c) = 0 ∧ fst (GetFloat64 key c) = float64_zero
  ∧ fst (GetBool key c) = false ∧ fst (GetDuration key c) = 0
  ∧ fst (GetStringSlice key c) = [].
Proof.
  intros Hnil.
  assert (fst (GetString key c) = EmptyString) as Hs.
  { unfold GetString. destruct (Get key c) as [v c']. cbn in Hnil. by subst v. }
  unfold GetInt, GetInt64, GetFloat64, GetBool, GetDuration, GetStringSlice.
  destruct (GetString key c) as [s c']. cbn in Hs. subst s. done.
Qed.

Lemma Get_absent key c :
  data c !! key = None → cache c !! key = None → Get key c = (Nil, c).
Proof. intros Hd Hc. unfold Get. by rewrite Hc, Hd. Qed.

Lemma Get_Set key value c : Get key (Set_ key value c) =
  (value, with_cache (<[key := value]> (delete key (cache c))) (Set_ key value c)).
Proof.
  unfold Get, Set_. cbn. by rewrite lookup_delete_eq, lookup_insert_eq.
Qed.

Lemma All_data c : All c = data c.
Proof.
  unfold All.
  apply (map_fold_weak_ind (λ r (m : gmap string any), r = m)); [done|].
  intros i x m r _ ->. done.
Qed.

(** [Set] leaves the value in the mapping and the key out of the cache, and
    [Get] then returns the value. *)
Lemma Get_after_Set key (value : any) c :
  fst (Get key (Set_ key value c)) = value
  ∧ data (Set_ key value c) !! key = Some value
  ∧ cache (Set_ key value c) !! key = None.
Proof.
  rewrite Get_Set. cbn. by rewrite lookup_insert_eq, lookup_delete_eq.
Qed.

(** C3. For every key and every value, of any dynamic type, [Get] right
    after [Set] returns that very value, and not the text [GetString] would
    make of it: [Set] stores it in the mapping and deletes the key from the
    cache, so that [Get] reads the mapping. *)
Theorem Set_then_Get key (value : any) c :
  fst (Get key (Set_ key value c)) = value
  ∧ data (Set_ key value c) !! key = Some value
  ∧ cache (Set_ key value c) !! key = None.
Proof. exact (Get_after_Set key value c). Qed.

(** C8. For a key that neither the mapping nor the cache holds, [Get]
    returns nil, [GetString] the empty string, [GetInt], [GetInt64] and
    [GetFloat64] zero, [GetBool] false, [GetDuration] the zero duration,
    [GetStringSlice] an empty slice, and [Has] false. *)
Theorem absent_key_zero_values key c :
  data c !! key = None → cache c !! key = None →
  fst (Get key c) = Nil
  ∧ fst (GetString key c) = EmptyString
  ∧ fst (GetInt key c) = 0
  ∧ fst (GetInt64 key c) = 0
  ∧ fst (GetFloat64 key c) = float64_zero
  ∧ fst (GetBool key c) = false
  ∧ fst (GetDuration key c) = 0
  ∧ fst (GetStringSlice key c) = []
  ∧ Has key c = false.
Proof.
  intros Hd Hc.
  assert (fst (Get key c) = Nil) as Hnil by (by rewrite Get_absent).
  destruct (Get_Nil_getters key c Hnil) as (? & ? & ? & ? & ? & ? & ?).
  split_and!; try done. unfold Has. by rewrite Hd.
Qed.

(** C6, as amended. [GetBool] returns true exactly when the string form of
    the value is one of [1], [t], [T], [true], [TRUE], [True]; for the empty
    string, for [0], [f], [F], [false], [FALSE], [False], and for every
    string [ParseBool] rejects, other casings of these words among them, it
    returns false. *)
Theorem GetBool_tokens key c :
  (fst (GetBool key c) = true ↔
     fst (GetString key c) ∈ ["1"; "t"; "T"; "true"; "TRUE"; "True"])
  ∧ (fst (GetString key c) ∉ ["1"; "t"; "T"; "true"; "TRUE"; "True"] →
     fst (GetBool key c) = false)
  ∧ (∀ str, snd (strconv.ParseBool str) = Some strconv.ErrSyntax ↔
       str ∉ ["1"; "t"; "T"; "true"; "TRUE"; "True";
              "0"; "f"; "F"; "false"; "FALSE"; "False"]).
Proof.
  assert (fst (GetBool key c) = true ↔
            fst (GetString key c) ∈ strconv.trueTokens) as Hiff.
  { unfold GetBool. destruct (GetString key c) as [s c']. cbn.
    destruct (String.eqb s EmptyString) eqn:He; cbn.
    - apply String.eqb_eq in He. subst s. split; [done|].
      intros Hin. unfold strconv.trueTokens in Hin.
      repeat (apply elem_of_cons in Hin as [?|Hin]; [done|]).
      by apply not_elem_of_nil in Hin.
    - apply strconv_facts.ParseBool_true. }
  split_and!; [exact Hiff| |exact strconv_facts.ParseBool_error].
  intros Hn. destruct (fst (GetBool key c)) eqn:Hb; [|done].
  exfalso. apply Hn, Hiff. done.
Qed.

End Getters.

(** C8, at the key [PORT] of the store built with no file and no variable. *)
Lemma absent_key_zero_values_bare :
  fst (Get "PORT" bare) = Nil
  ∧ fst (GetString "PORT" bare) = EmptyString
  ∧ fst (GetInt "PORT" bare) = 0
  ∧ fst (GetInt64 "PORT" bare) = 0
  ∧ fst (GetFloat64 (H := rejectingLib) "PORT" bare) = 0
  ∧ fst (GetBool "PORT" bare) = false
  ∧ fst (GetDuration (H := rejectingLib) "PORT" bare) = 0
  ∧ fst (GetStringSlice "PORT" bare) = []
  ∧ Has "PORT" bare = false.
Proof.
  apply (absent_key_zero_values (H := rejectingLib) "PORT" bare); reflexivity.
Defined.

(** C6, refuted as stated: the spelling [tRuE] of [true] reads as false. *)
Lemma GetBool_mixed_case_is_false :
  fst (GetBool "DEBUG" (Set_ "DEBUG" (Str "tRuE") bare)) = false
  ∧ strconv.ParseBool "tRuE" = (false, Some strconv.ErrSyntax).
Proof. split; reflexivity. Qed.

(** C5. A numeral out of the range of the integer type does not read as zero:
    [GetInt] and [GetInt64] return the largest magnitude of its sign. *)
Theorem GetInt_out_of_range_is_not_zero :
  fst (GetInt "PORT" (Set_ "PORT" (Str "99999999999999999999") bare))
    = 9223372036854775807
  ∧ fst (GetInt64 "PORT" (Set_ "PORT" (Str "-9223372036854775809") bare))
    = -9223372036854775808
  ∧ strconv.Atoi "99999999999999999999"
    = (9223372036854775807, Some strconv.ErrRange).
Proof. split_and!; vm_compute; reflexivity. Qed.

(** ** The assertions of [TestGetMethods], and those of [TestLoadEnvFiles]
    after a [Reload] *)

Example test_GetString :
  fst (GetString "string_key" testStore) = "test_string"
  ∧ fst (GetString "nonexistent_key" testStore) = EmptyString.
Proof. split; reflexivity. Qed.

Example test_GetInt :
  fst (GetInt "int_key" testStore) = 42
  ∧ fst (GetInt "nonexistent_key" testStore) = 0
  ∧ fst (GetInt "string_key" testStore) = 0
  ∧ fst (GetInt "empty_key" testStore) = 0
  ∧ fst (GetInt64 "int64_key" testStore) = 9223372036854775807.
Proof. split_and!; vm_compute; reflexivity. Qed.

Example test_GetBool :
  fst (GetBool "bool_key_true" testStore) = true
  ∧ fst (GetBool "bool_key_false" testStore) = false
  ∧ fst (GetBool "empty_key" testStore) = false.
Proof. split_and!; reflexivity. Qed.

Example test_GetStringSlice :
  fst (GetStringSlice "slice_key" testStore) = ["item1"; "item2"; "item3"].
Proof. reflexivity. Qed.

Example test_GetStringMap :
  GetStringMap "map_prefix" testStore !! "key1" = Some (Str "value1")
  ∧ GetStringMap "map_prefix" testStore !! "key2" = Some (Str "value2")
  ∧ size (GetStringMap "map_prefix" testStore) = 2%nat.
Proof. split_and!; vm_compute; reflexivity. Qed.

Example test_LoadEnvFiles_Reload :
  fst (GetString "SHARED_KEY" (Reload layeredOS bare tt).1.2) = "dev_shared"
  ∧ (Reload layeredOS bare tt).1.1 = None.
Proof. split; vm_compute; reflexivity. Qed.

(** ** The loader *)

Section Loader.
Context {W : Type}.
Implicit Types (c : config W) (os : OS).
Import strings strings_facts.

Lemma cut_first sep (a b : string) :
  occurs sep a = false → cut sep (a +:+ String sep b) = Some (a, b).
Proof.
  induction a as [|x a IH]; cbn; intros Ha.
  - rewrite append_nil_l. cbn. by rewrite Ascii.eqb_refl.
  - apply orb_false_iff in Ha as [Hx Ha]. rewrite append_cons. cbn.
    by rewrite Hx, IH.
Qed.

Lemma eqb_append_sep (a b : string) sep :
  String.eqb (a +:+ String sep b) EmptyString = false.
Proof. by destruct a. Qed.

(** C7, as amended. Of a line that is an assignment, the key is what
    precedes the first [=], trimmed of white space, and the value is what
    follows it, trimmed of white space and then of every leading and every
    trailing quote, single or double, however many there are: what is
    stored neither starts nor ends with a quote. *)
Theorem loadEnvLine_strips_all_quotes c (text p0 p1 : string) :
  TrimSpace text = p0 +:+ String "=" p1 →
  occurs "=" p0 = false →
  HasPrefix (TrimSpace text) "#" = false →
  ∃ value lq rq,
    loadEnvLine c text
      = with_data (<[TrimSpace p0 := Str value]> (data c)) c
    ∧ allIn quotes lq = true ∧ allIn quotes rq = true
    ∧ TrimSpace p1 = lq +:+ value +:+ rq
    ∧ trimLeftASCII value quotes = value
    ∧ trimRightASCII value quotes = value.
Proof.
  intros Hline Hp0 Hhash.
  destruct (Trim_split (TrimSpace p1) quotes) as (lq & rq & Hl & Hr & Hsplit).
  exists (Trim (TrimSpace p1) quotes), lq, rq.
  split_and!; [|done|done|done|apply Trim_trimmed_left|apply Trim_trimmed_right].
  unfold loadEnvLine, SplitN2. rewrite Hhash, Hline, eqb_append_sep.
  cbn [orb]. by rewrite cut_first.
Qed.

End Loader.

(** C7, on the line [B = '"x"'] read into the bare store: the key is [B]
    and the value [x]. *)
Lemma loadEnvLine_strips_all_quotes_B :
  ∃ value lq rq,
    loadEnvLine bare ("B = " +:+ squote +:+ dquote +:+ "x" +:+ dquote +:+ squote)
      = with_data (<[strings.TrimSpace "B " := Str value]> (data bare)) bare
    ∧ strings.allIn quotes lq = true ∧ strings.allIn quotes rq = true
    ∧ strings.TrimSpace (" " +:+ squote +:+ dquote +:+ "x" +:+ dquote +:+ squote)
      = lq +:+ value +:+ rq
    ∧ strings.trimLeftASCII value quotes = value
    ∧ strings.trimRightASCII value quotes = value.
Proof.
  apply (loadEnvLine_strips_all_quotes bare
           ("B = " +:+ squote +:+ dquote +:+ "x" +:+ dquote +:+ squote)
           "B " (" " +:+ squote +:+ dquote +:+ "x" +:+ dquote +:+ squote));
    reflexivity.
Defined.

(** C7, refuted as stated: of two layers of quotes around a value, both are
    removed, and none of the inner quotes is kept. *)
Lemma loadEnvFile_strips_both_layers :
  data (loadEnvFile quotedOS ".env" bare) !! "A" = Some (Str "x")
  ∧ data (loadEnvFile quotedOS ".env" bare) !! "B" = Some (Str "x")
  ∧ data (loadEnvFile quotedOS ".env" bare) !! "C" = Some (Str "x y")
  ∧ data (loadEnvFile quotedOS ".env" bare) !! "A"
    ≠ Some (Str (dquote +:+ "x" +:+ dquote)).
Proof. split_and!; [reflexivity..|]. vm_compute. discriminate. Qed.

(** ** Layers *)

Section Layers.
Context {W : Type}.
Implicit Types (c : config W) (os : OS) (ds layers : list (gmap string any)).

Lemma map_fold_insert_union (d m : gmap string any) :
  map_fold (λ k v acc, <[k := v]> acc) m d = d ∪ m.
Proof.
  apply (map_fold_weak_ind (λ r (d : gmap string any), r = d ∪ m)).
  - by rewrite (left_id_L ∅ (∪)).
  - intros i x d' r _ ->. by rewrite insert_union_l.
Qed.

(** A loader that folds over lines adds its layer on top of the mapping and
    leaves the sources and the cache alone. *)
Lemma foldl_loadEnvLine lines c :
  data (foldl loadEnvLine c lines) = data (foldl loadEnvLine blank lines) ∪ data c
  ∧ sources (foldl loadEnvLine c lines) = sources c
  ∧ cache (foldl loadEnvLine c lines) = cache c.
Proof.
  induction lines as [|x lines IH] using rev_ind.
  - cbn. by rewrite (left_id_L ∅ (∪)).
  - rewrite !foldl_app. cbn [foldl]. destruct IH as (IHd & IHs & IHc).
    unfold loadEnvLine at 1 3 5 7.
    destruct (_ || _); [done|].
    destruct (strings.SplitN2 _ _) as [|p0 [|p1 [|? ?]]]; try done.
    cbn. by rewrite IHd, insert_union_l.
Qed.

Lemma loadEnvFile_layer os filename c :
  data (loadEnvFile os filename c) = fileLayer os filename ∪ data c
  ∧ sources (loadEnvFile os filename c) = sources c
  ∧ cache (loadEnvFile os filename c) = cache c.
Proof.
  unfold fileLayer, loadEnvFile. destruct (Open os filename) as [lines|].
  - apply foldl_loadEnvLine.
  - cbn. by rewrite (left_id_L ∅ (∪)).
Qed.

Lemma loadSystemEnv_layer os c :
  data (loadSystemEnv os c) = envLayer os ∪ data c
  ∧ sources (loadSystemEnv os c) = sources c
  ∧ cache (loadSystemEnv os c) = cache c.
Proof.
  unfold envLayer, loadSystemEnv.
  induction (Environ os) as [|x envs IH] using rev_ind.
  - cbn. by rewrite (left_id_L ∅ (∪)).
  - rewrite !foldl_app. cbn [foldl]. destruct IH as (IHd & IHs & IHc).
    destruct (strings.SplitN2 _ _) as [|p0 [|p1 [|? ?]]]; try done.
    cbn. by rewrite IHd, insert_union_l.
Qed.

Lemma loadEnvFiles_layers os c :
  data (loadEnvFiles os c)
    = fileLayer os (envFileName os)
        ∪ (fileLayer os ".local.env" ∪ (fileLayer os ".env" ∪ data c))
  ∧ sources (loadEnvFiles os c) = sources c
  ∧ cache (loadEnvFiles os c) = cache c.
Proof.
  unfold loadEnvFiles. fold (envFileName os).
  destruct (loadEnvFile_layer os ".env" c) as (D1 & S1 & C1).
  destruct (loadEnvFile_layer os ".local.env" (loadEnvFile os ".env" c))
    as (D2 & S2 & C2).
  destruct (loadEnvFile_layer os (envFileName os)
              (loadEnvFile os ".local.env" (loadEnvFile os ".env" c)))
    as (D3 & S3 & C3).
  rewrite D3, D2, D1, S3, S2, S1, C3, C2, C1. done.
Qed.

(** The mapping after the files and the environment. *)
Lemma loaders_data os c :
  data c = ∅ →
  data (loadSystemEnv os (loadEnvFiles os c)) = merge (baseLayers os)
  ∧ sources (loadSystemEnv os (loadEnvFiles os c)) = sources c
  ∧ cache (loadSystemEnv os (loadEnvFiles os c)) = cache c.
Proof.
  intros Hc.
  destruct (loadSystemEnv_layer os (loadEnvFiles os c)) as (D1 & S1 & C1).
  destruct (loadEnvFiles_layers os c) as (D2 & S2 & C2).
  rewrite D1, D2, S1, S2, C1, C2, Hc. done.
Qed.

Lemma New_data os : data (New (W := W) os) = merge (baseLayers os).
Proof. unfold New. by apply loaders_data. Qed.

Lemma New_cache os : cache (New (W := W) os) = ∅.
Proof.
  destruct (loaders_data os
    ({| data := ∅; sources := []; cache := ∅ |} : config W) eq_refl)
    as (_ & _ & Hc).
  exact Hc.
Qed.

Lemma merge_app layers ds :
  merge (layers ++ ds) = foldl (λ acc m, m ∪ acc) (merge layers) ds.
Proof. unfold merge. by rewrite foldl_app. Qed.

Lemma merge_snoc layers m : merge (layers ++ [m]) = m ∪ merge layers.
Proof. by rewrite merge_app. Qed.

(** The loop over sources that all load. *)
Lemma loadSources_ok ss c w ds w' :
  loadedOK ss w ds w' →
  loadSources ss c w
    = (None, with_data (foldl (λ acc m, m ∪ acc) (data c) ds) c, w').
Proof.
  intros Hok. revert c. induction Hok as [w|s ss w d w1 ds w2 Hs _ IH]; intros c.
  - by destruct c.
  - cbn. rewrite Hs, IH. cbn. by rewrite map_fold_insert_union.
Qed.

(** The loop over sources of which one fails: it stops there. *)
Lemma loadSources_error pre s post c w ds w1 d e w2 :
  loadedOK pre w ds w1 →
  Load s w1 = (d, Some e, w2) →
  loadSources (pre ++ s :: post) c w
    = (Some e, with_data (foldl (λ acc m, m ∪ acc) (data c) ds) c, w2).
Proof.
  intros Hok Hs. revert c.
  induction Hok as [w|s0 ss w d0 w1 ds w3 Hs0 _ IH]; intros c.
  - cbn. rewrite Hs. by destruct c.
  - cbn. rewrite Hs0, (IH Hs). cbn. by rewrite map_fold_insert_union.
Qed.

(** The value that the last layer holding a key gives it is the value of
    the key in the merged layers. *)
Lemma merge_topLayer layers k v :
  topLayer layers k v → merge layers !! k = Some v.
Proof.
  induction layers as [|m layers IH] using rev_ind;
    intros (i & mi & Hi & Hv & Hlast).
  - by rewrite lookup_nil in Hi.
  - rewrite merge_snoc.
    destruct (decide (i = length layers)) as [->|Hne].
    + rewrite list_lookup_middle in Hi by done. injection Hi as <-.
      by apply lookup_union_Some_l.
    + assert (i < length layers)%nat as Hlt.
      { apply lookup_lt_Some in Hi. rewrite length_app in Hi. cbn in Hi. lia. }
      rewrite lookup_app_l in Hi by done.
      rewrite lookup_union_r.
      * apply IH. exists i, mi. split_and!; [done..|].
        intros j m' Hj Hm'. apply (Hlast j m' Hj).
        rewrite lookup_app_l; [done|]. by apply lookup_lt_Some in Hm'.
      * apply (Hlast (length layers) m Hlt). by rewrite list_lookup_middle.
Qed.

(** The store of [Reload] when it reaches the loop over the sources. *)
Lemma Reload_loaders os c w :
  Reload os c w
    = loadSources (sources c)
        {| data := merge (baseLayers os); sources := sources c; cache := ∅ |} w.
Proof.
  unfold Reload. cbv zeta.
  destruct (loaders_data os (with_data ∅ (with_cache ∅ c)) eq_refl)
    as (D & S & C).
  destruct (loadSystemEnv os _) as [d s h]. cbn in D, S, C. by subst.
Qed.

Lemma Reload_ok os c w ds w' :
  loadedOK (sources c) w ds w' →
  Reload os c w
    = (None, {| data := merge (baseLayers os ++ ds);
                sources := sources c; cache := ∅ |}, w').
Proof.
  intros Hok. rewrite Reload_loaders, (loadSources_ok _ _ _ _ _ Hok).
  by rewrite merge_app.
Qed.

(** C1. After [New], and after a [Reload] whose sources all load, the value
    of a key in the mapping is the one that the layer of highest precedence
    among those that have the key gives it, the layers being, from the
    lowest: the file [.env], the file [.local.env], the file named after
    [APP_ENV] ([.dev.env] when it is unset or empty), the variables of the
    process, and then the sources in the order of their registration. *)
Theorem layer_precedence os :
  (∀ k v, topLayer (baseLayers os) k v → data (New (W := W) os) !! k = Some v)
  ∧ (∀ c w ds w',
       loadedOK (sources c) w ds w' →
       ∃ c', Reload os c w = (None, c', w')
             ∧ ∀ k v, topLayer (baseLayers os ++ ds) k v → data c' !! k = Some v)
  ∧ baseLayers os
    = [ fileLayer os ".env"; fileLayer os ".local.env";
        fileLayer os ("." +:+ (if String.eqb (Getenv os "APP_ENV") EmptyString
                               then "dev" else Getenv os "APP_ENV") +:+ ".env");
        envLayer os ].
Proof.
  split_and!; [| |done].
  - intros k v Htop. rewrite New_data. by apply merge_topLayer.
  - intros c w ds w' Hok. eexists. split; [by apply Reload_ok|].
    intros k v Htop. cbn [data]. by apply merge_topLayer.
Qed.

(** C2. When the [Load] of a registered source returns an error, [Reload]
    returns this error; the sources registered before it have been loaded,
    in the order of their registration, and those registered after it are
    not: the world is as the failing [Load] left it.  The mapping holds the
    layers of the files and of the environment and, over them, the maps of
    the sources that loaded: nothing is rolled back, and no key of the files
    or the environment is missing.  [AddSource] registers at the end. *)
Theorem Reload_source_error os c w pre s post ds w1 d e w2 :
  sources c = pre ++ s :: post →
  loadedOK pre w ds w1 →
  Load s w1 = (d, Some e, w2) →
  Reload os c w
    = (Some e, {| data := merge (baseLayers os ++ ds);
                  sources := sources c; cache := ∅ |}, w2)
  ∧ (∀ k, is_Some (merge (baseLayers os) !! k) →
          is_Some (merge (baseLayers os ++ ds) !! k))
  ∧ (∀ k v, topLayer (baseLayers os ++ ds) k v →
            merge (baseLayers os ++ ds) !! k = Some v)
  ∧ ∀ s', sources (AddSource s' c) = sources c ++ [s'].
Proof.
  intros Hsrc Hok Hs. split_and!.
  - rewrite Reload_loaders, Hsrc.
    rewrite (loadSources_error _ _ _ _ _ _ _ _ _ _ Hok Hs).
    by rewrite merge_app.
  - intros k Hk. rewrite merge_app. clear Hok.
    induction ds as [|m ds' IH] using rev_ind; [done|].
    rewrite foldl_app. cbn.
    destruct IH as [x Hx]. destruct (m !! k) as [y|] eqn:Hm.
    + exists y. by apply lookup_union_Some_l.
    + exists x. by rewrite lookup_union_r.
  - intros k v. apply merge_topLayer.
  - done.
Qed.

End Layers.

(** C1, on the files of [TestLoadEnvFiles]: the file [.dev.env] wins over the
    other two, the environment over the files, and a source over all. *)
Lemma layer_precedence_layered :
  data (New (W := unit) layeredOS) !! "SHARED_KEY" = Some (Str "dev_shared")
  ∧ data (New (W := unit) layeredOS) !! "LOCAL_KEY" = Some (Str "from_environment")
  ∧ ∃ c', Reload layeredOS withRemote [] = (None, c', ["remote"])
          ∧ data c' !! "SHARED_KEY" = Some (Int 7).
Proof.
  split_and!.
  - apply (proj1 (layer_precedence layeredOS)).
    exists 2%nat, (fileLayer layeredOS ".dev.env").
    split_and!; [reflexivity..|].
    intros j m' Hj Hm'. pose proof (lookup_lt_Some _ _ _ Hm') as Hlen.
    assert (j = 3%nat) as -> by (cbn in Hlen; lia).
    change (Some (envLayer layeredOS) = Some m') in Hm'.
    injection Hm' as <-. reflexivity.
  - apply (proj1 (layer_precedence layeredOS)).
    exists 3%nat, (envLayer layeredOS).
    split_and!; [reflexivity..|].
    intros j m' Hj Hm'. pose proof (lookup_lt_Some _ _ _ Hm') as Hlen.
    cbn in Hlen. lia.
  - destruct (proj1 (proj2 (layer_precedence layeredOS)) withRemote []
                [{["SHARED_KEY" := Int 7]}] ["remote"]) as (c' & Hre & Hc').
    { eapply loadedOK_cons; [reflexivity|apply loadedOK_nil]. }
    exists c'. split; [exact Hre|]. apply Hc'.
    exists 4%nat, {["SHARED_KEY" := Int 7]}.
    split_and!; [reflexivity..|].
    intros j m' Hj Hm'. pose proof (lookup_lt_Some _ _ _ Hm') as Hlen.
    cbn in Hlen. lia.
Defined.

(** C2, on three sources of which the second fails: the log shows that the
    first two were loaded, in this order, and the third was not. *)
Lemma Reload_source_error_logged :
  Reload layeredOS withFailing []
    = (Some "boom",
       {| data := merge (baseLayers layeredOS ++ [{["A" := Str "1"]}]);
          sources := sources withFailing; cache := ∅ |},
       ["a"; "b"])
  ∧ (∀ k, is_Some (merge (baseLayers layeredOS) !! k) →
          is_Some (merge (baseLayers layeredOS ++ [{["A" := Str "1"]}]) !! k))
  ∧ (∀ k v, topLayer (baseLayers layeredOS ++ [{["A" := Str "1"]}]) k v →
            merge (baseLayers layeredOS ++ [{["A" := Str "1"]}]) !! k = Some v)
  ∧ ∀ s', sources (AddSource s' withFailing) = sources withFailing ++ [s'].
Proof.
  apply (Reload_source_error layeredOS withFailing []
           [logging "a" {["A" := Str "1"]} None]
           (logging "b" ∅ (Some "boom"))
           [logging "c" {["C" := Str "3"]} None]
           [{["A" := Str "1"]}] ["a"] ∅ "boom" ["a"; "b"]).
  - reflexivity.
  - eapply loadedOK_cons; [reflexivity|apply loadedOK_nil].
  - reflexivity.
Defined.

(** ** The cache *)

Section Cache.
Context `{GoLib} {W : Type}.
Implicit Types (c : config W) (w : W) (o : op (W := W)) (k key : string).

Lemma exec_reads o key c w :
  reads o = Some key → exec o (c, w) = (snd (Get key c), w).
Proof.
  destruct o; intros [= <-]; cbn;
    by rewrite ?GetString_snd, ?GetInt_snd, ?GetInt64_snd, ?GetFloat64_snd,
      ?GetBool_snd, ?GetDuration_snd, ?GetStringSlice_snd.
Qed.

Lemma loadSources_cache ss c w : cache (loadSources ss c w).1.2 = cache c.
Proof.
  revert c w. induction ss as [|s ss IH]; intros c w; cbn; [done|].
  destruct (Load s w) as [[d [e|]] w1]; [done|]. by rewrite IH.
Qed.

Lemma Reload_cache os c w : cache (Reload os c w).1.2 = ∅.
Proof. by rewrite Reload_loaders, loadSources_cache. Qed.

(** [Get] writes to the cache only the value that the mapping has for its
    key, and only when the cache has none. *)
Lemma Get_cache key c k v :
  cache (snd (Get key c)) !! k = Some v →
  cache c !! k = Some v
  ∨ (key = k ∧ cache c !! k = None ∧ data c !! k = Some v).
Proof.
  unfold Get. destruct (cache c !! key) as [x|] eqn:Hc; [by left|].
  destruct (data c !! key) as [y|] eqn:Hd; [|by left]. cbn.
  destruct (decide (key = k)) as [->|Hne].
  - rewrite lookup_insert_eq. intros [= ->]. by right.
  - rewrite lookup_insert_ne by done. by left.
Qed.

Lemma exec_cache o c w k v :
  cache (exec o (c, w)).1 !! k = Some v →
  cache c !! k = Some v
  ∨ (reads o = Some k ∧ cache c !! k = None ∧ data c !! k = Some v).
Proof.
  destruct (reads o) as [key|] eqn:Hr.
  - rewrite (exec_reads o key c w Hr). cbn. intros Hk.
    apply Get_cache in Hk as [?|(-> & ? & ?)]; auto.
  - intros Hk. left. destruct o; try done; cbn in Hk.
    + by apply lookup_delete_Some in Hk as [_ ?].
    + pose proof (Reload_cache os c w) as Hempty.
      destruct (Reload os c w) as [[e c'] w']. cbn in *.
      by rewrite Hempty, lookup_empty in Hk.
Qed.

Lemma Get_coherent key c :
  coherent c → fst (Get key c) = default Nil (data c !! key).
Proof.
  intros Hc. unfold Get. destruct (cache c !! key) as [x|] eqn:Hk.
  - by rewrite (lookup_weaken _ _ _ _ Hk Hc).
  - by destruct (data c !! key).
Qed.

Lemma exec_coherent o c w : coherent c → coherent (exec o (c, w)).1.
Proof.
  unfold coherent. intros Hc. destruct (reads o) as [key|] eqn:Hr.
  - rewrite (exec_reads o key c w Hr). cbn. unfold Get.
    destruct (cache c !! key); [done|].
    destruct (data c !! key) as [y|] eqn:Hd; [|done]. cbn.
    by apply insert_subseteq_l.
  - destruct o; try done; cbn.
    + apply map_subseteq_spec. intros i x [Hne Hi]%lookup_delete_Some.
      rewrite lookup_insert_ne by done. by apply (lookup_weaken _ _ _ _ Hi Hc).
    + pose proof (Reload_cache os c w) as Hempty.
      destruct (Reload os c w) as [[e c'] w']. cbn in *.
      rewrite Hempty. apply map_empty_subseteq.
Qed.

Lemma run_coherent ops c w : coherent c → coherent (run ops (c, w)).1.
Proof.
  revert c w. induction ops as [|o ops IH]; intros c w Hc; [done|].
  change (coherent (run ops (exec o (c, w))).1).
  pose proof (exec_coherent o c w Hc) as Hc'.
  destruct (exec o (c, w)) as [c' w']. by apply IH.
Qed.

(** C4. A call fills an entry of the cache only if it reads its key through
    [Get] and the mapping has the key, and then with the value of the
    mapping: [Set], [Reload], [AddSource], [Has], [All] and [GetStringMap]
    add nothing.  [Get] of a key that neither map holds returns nil and
    leaves the store as it is.  After [Set] the key is not in the cache and
    [Get] returns the value set; after [Reload], with or without an error,
    the cache is empty.  In every store reached from [New] by calls of the
    methods, the cache is included in the mapping and [Get] returns what the
    mapping holds. *)
Theorem cache_discipline :
  (∀ o c w k v,
     cache (exec o (c, w)).1 !! k = Some v →
     cache c !! k = Some v
     ∨ (reads o = Some k ∧ cache c !! k = None ∧ data c !! k = Some v))
  ∧ (∀ key c, data c !! key = None → cache c !! key = None →
              Get key c = (Nil, c))
  ∧ (∀ key value c,
       cache (Set_ key value c) !! key = None
       ∧ fst (Get key (Set_ key value c)) = value
       ∧ data (Set_ key value c) !! key = Some value)
  ∧ (∀ os c w key,
       cache (Reload os c w).1.2 = ∅
       ∧ fst (Get key (Reload os c w).1.2)
         = default Nil (data (Reload os c w).1.2 !! key))
  ∧ (∀ os ops w key,
       cache (run ops (New os, w)).1 ⊆ data (run ops (New os, w)).1
       ∧ fst (Get key (run ops (New os, w)).1)
         = default Nil (data (run ops (New os, w)).1 !! key)).
Proof.
  split_and!.
  - apply exec_cache.
  - apply Get_absent.
  - intros key value c. destruct (Get_after_Set key value c) as (? & ? & ?). done.
  - intros os c w key. split; [apply Reload_cache|].
    apply Get_coherent. unfold coherent. rewrite Reload_cache.
    apply map_empty_subseteq.
  - intros os ops w key.
    assert (coherent (run ops (New os, w)).1) as Hc.
    { apply run_coherent. unfold coherent. rewrite New_cache.
      apply map_empty_subseteq. }
    split; [exact Hc|]. by apply Get_coherent.
Qed.

End Cache.

(** ** Keys set to nil *)

Section NilValues.
Context `{GoLib} {W : Type}.
Implicit Types (c : config W) (key : string).
Import strings strings_facts.

Lemma HasPrefix_append (p s : string) : HasPrefix (p +:+ s) p = true.
Proof.
  induction p as [|x p IH]; [by destruct s|].
  rewrite append_cons. cbn. by rewrite Ascii.eqb_refl, IH.
Qed.

Lemma drop_append (p s : string) : drop (String.length p) (p +:+ s) = s.
Proof. induction p as [|x p IH]; [by destruct s|]. by rewrite append_cons. Qed.

Lemma TrimPrefix_append (p s : string) : TrimPrefix (p +:+ s) p = s.
Proof. unfold TrimPrefix. by rewrite HasPrefix_append, drop_append. Qed.

Lemma HasPrefix_split (s p : string) :
  HasPrefix s p = true → s = p +:+ TrimPrefix s p.
Proof.
  intros Hp. unfold TrimPrefix. rewrite Hp. revert s Hp.
  induction p as [|x p IH]; intros s Hp; [by destruct s|].
  destruct s as [|y s]; [done|]. cbn in Hp.
  apply andb_true_iff in Hp as [Hxy Hp]. apply Ascii.eqb_eq in Hxy as ->.
  rewrite append_cons. cbn. by rewrite <- (IH s Hp).
Qed.

(** [GetStringMap key] has under [sub] what the mapping has under [key],
    a dot and [sub]. *)
Lemma GetStringMap_lookup key c (sub : string) :
  GetStringMap key c !! sub = data c !! ((key +:+ ".") +:+ sub).
Proof.
  unfold GetStringMap. revert sub.
  apply (map_fold_weak_ind
           (λ r (m : gmap string any), ∀ sub, r !! sub = m !! ((key +:+ ".") +:+ sub))).
  - intros sub. by rewrite !lookup_empty.
  - intros i x m r Hi IH sub.
    destruct (HasPrefix i (key +:+ ".")) eqn:Hp.
    + destruct (decide (TrimPrefix i (key +:+ ".") = sub)) as [<-|Hne].
      * by rewrite <- (HasPrefix_split i _ Hp), !lookup_insert_eq.
      * rewrite !lookup_insert_ne; [done| |done].
        intros ->. by rewrite TrimPrefix_append in Hne.
    + rewrite lookup_insert_ne; [done|].
      intros ->. by rewrite HasPrefix_append in Hp.
Qed.

(** C10, as amended. After [Set(key, nil)], [Has] returns true, [Get]
    returns nil and [GetString] the empty string; [Get] and every getter
    built on it return for the key what they return for a key that is in
    neither map.  [Has] tells the two apart, and so do [All] and, for a key
    made of a prefix, a dot and a name, [GetStringMap] of the prefix. *)
Theorem Set_nil_reads_as_absent key c c0 :
  data c0 !! key = None → cache c0 !! key = None →
  (Has key (Set_ key Nil c) = true ∧ Has key c0 = false)
  ∧ (fst (Get key (Set_ key Nil c)) = Nil ∧ fst (Get key c0) = Nil)
  ∧ (fst (GetString key (Set_ key Nil c)) = EmptyString
     ∧ fst (GetString key c0) = EmptyString)
  ∧ fst (GetInt key (Set_ key Nil c)) = fst (GetInt key c0)
  ∧ fst (GetInt64 key (Set_ key Nil c)) = fst (GetInt64 key c0)
  ∧ fst (GetFloat64 key (Set_ key Nil c)) = fst (GetFloat64 key c0)
  ∧ fst (GetBool key (Set_ key Nil c)) = fst (GetBool key c0)
  ∧ fst (GetDuration key (Set_ key Nil c)) = fst (GetDuration key c0)
  ∧ fst (GetStringSlice key (Set_ key Nil c)) = fst (GetStringSlice key c0)
  ∧ (All (Set_ key Nil c) !! key = Some Nil ∧ All c0 !! key = None)
  ∧ (∀ prefix sub, key = prefix +:+ "." +:+ sub →
       GetStringMap prefix (Set_ key Nil c) !! sub = Some Nil
       ∧ GetStringMap prefix c0 !! sub = None).
Proof.
  intros Hd Hc.
  destruct (Get_after_Set key Nil c) as (Hget & Hdata & _).
  destruct (Get_Nil_getters key _ Hget) as (S1 & I1 & J1 & F1 & B1 & D1 & L1).
  assert (fst (Get key c0) = Nil) as Hget0 by (by rewrite Get_absent).
  destruct (Get_Nil_getters key _ Hget0) as (S0 & I0 & J0 & F0 & B0 & D0 & L0).
  rewrite S1, I1, J1, F1, B1, D1, L1, S0, I0, J0, F0, B0, D0, L0, !All_data.
  split_and!; try done.
  - unfold Has. by rewrite Hdata.
  - unfold Has. by rewrite Hd.
  - intros prefix sub ->. rewrite !GetStringMap_lookup, !append_assoc. done.
Qed.

End NilValues.

(** C10, on the key [db.host], set to nil in a store built with no file and no
    variable and compared with this store. *)
Lemma Set_nil_reads_as_absent_bare :
  (Has "db.host" (Set_ "db.host" Nil bare) = true ∧ Has "db.host" bare = false)
  ∧ (fst (Get "db.host" (Set_ "db.host" Nil bare)) = Nil
     ∧ fst (Get "db.host" bare) = Nil)
  ∧ (fst (GetString "db.host" (Set_ "db.host" Nil bare)) = EmptyString
     ∧ fst (GetString "db.host" bare) = EmptyString)
  ∧ fst (GetInt "db.host" (Set_ "db.host" Nil bare)) = fst (GetInt "db.host" bare)
  ∧ fst (GetInt64 "db.host" (Set_ "db.host" Nil bare))
    = fst (GetInt64 "db.host" bare)
  ∧ fst (GetFloat64 (H := rejectingLib) "db.host" (Set_ "db.host" Nil bare))
    = fst (GetFloat64 (H := rejectingLib) "db.host" bare)
  ∧ fst (GetBool "db.host" (Set_ "db.host" Nil bare))
    = fst (GetBool "db.host" bare)
  ∧ fst (GetDuration (H := rejectingLib) "db.host" (Set_ "db.host" Nil bare))
    = fst (GetDuration (H := rejectingLib) "db.host" bare)
  ∧ fst (GetStringSlice "db.host" (Set_ "db.host" Nil bare))
    = fst (GetStringSlice "db.host" bare)
  ∧ (All (Set_ "db.host" Nil bare) !! "db.host" = Some Nil
     ∧ All bare !! "db.host" = None)
  ∧ (∀ prefix sub, "db.host" = prefix +:+ "." +:+ sub →
       GetStringMap prefix (Set_ "db.host" Nil bare) !! sub = Some Nil
       ∧ GetStringMap prefix bare !! sub = None).
Proof.
  apply (Set_nil_reads_as_absent (H := rejectingLib) "db.host" bare bare);
    reflexivity.
Defined.

(** C10, refuted as stated: [GetStringMap], a getter, and [All] return for a
    key set to nil something else than for an absent key, so that [Has] is
    not alone in telling them apart. *)
Lemma Set_nil_seen_by_GetStringMap :
  GetStringMap "db" (Set_ "db.host" Nil bare) ≠ GetStringMap "db" bare
  ∧ All (Set_ "db.host" Nil bare) ≠ All bare
  ∧ GetStringMap "db" (Set_ "db.host" Nil bare) !! "host" = Some Nil
  ∧ GetStringMap "db" bare !! "host" = None.
Proof.
  split_and!; [| |reflexivity..].
  - intros Heq. apply (f_equal (λ m : gmap string any, m !! "host")) in Heq.
    vm_compute in Heq. discriminate.
  - intros Heq. apply (f_equal (λ m : gmap string any, m !! "db.host")) in Heq.
    vm_compute in Heq. discriminate.
Qed.

(** ** Goroutines and the lock *)

Module Concurrent_facts.
Import Concurrent.

Lemma countb_insert f gs i g g' :
  gs !! i = Some g →
  (countb f (<[i := g']> gs) + b2n (f g) = countb f gs + b2n (f g'))%nat.
Proof.
  revert i. induction gs as [|x gs IH]; intros [|i] Hi; try done.
  - injection Hi as ->. cbn. lia.
  - specialize (IH i Hi).
    change (<[S i := g']> (x :: gs)) with (x :: <[i := g']> gs).
    cbn [countb]. lia.
Qed.

Lemma countb_pos f gs i g :
  gs !! i = Some g → f g = true → (1 ≤ countb f gs)%nat.
Proof.
  revert i. induction gs as [|x gs IH]; intros [|i] Hi Hf; try done; cbn in *.
  - injection Hi as ->. rewrite Hf. cbn. lia.
  - specialize (IH i Hi Hf). lia.
Qed.

Lemma countb_one f gs i j g g' :
  countb f gs = 1%nat → gs !! i = Some g → f g = true →
  gs !! j = Some g' → f g' = true → i = j.
Proof.
  revert i j.
  induction gs as [|x gs IH]; intros [|i] [|j] Hc Hi Hf Hj Hf';
    try done; cbn in *.
  - injection Hi as ->. rewrite Hf in Hc.
    pose proof (countb_pos f gs j g' Hj Hf'). cbn in Hc. lia.
  - injection Hj as ->. rewrite Hf' in Hc.
    pose proof (countb_pos f gs i g Hi Hf). cbn in Hc. lia.
  - f_equal. apply IH; try done. destruct (f x); cbn in Hc; [|done].
    pose proof (countb_pos f gs i g Hi Hf). lia.
Qed.

(** Every step keeps the lock and the pool in agreement. *)
Lemma step_lockInv i st st' : step i st = Some st' → lockInv st → lockInv st'.
Proof.
  destruct st as [s gs]. unfold step. cbn.
  destruct (gs !! i) as [g|] eqn:Hi; [|done]. cbn.
  destruct (step1 g s) as [[g' s']|] eqn:Hstep; [|done]. cbn.
  intros [= <-]. unfold lockInv. cbn. intros [Hr Hw].
  pose proof (countb_insert holdsR gs i g g' Hi) as HR.
  pose proof (countb_insert holdsW gs i g g' Hi) as HW.
  pose proof (countb_pos holdsR gs i g Hi) as PR.
  pose proof (countb_pos holdsW gs i g Hi) as PW.
  destruct g as [cl p], s as [[wr rd] d h]. unfold step1 in Hstep. cbn in *.
  destruct cl, p; cbn in Hstep; try done;
    unfold RLock, Lock in Hstep; cbn in Hstep;
    repeat match type of Hstep with
           | context [if ?b then _ else _] => destruct b eqn:?
           | context [match ?x with _ => _ end] => destruct x eqn:?
           end; cbn in Hstep; try done;
    injection Hstep as <- <-; cbn in *;
    try specialize (PR eq_refl); try specialize (PW eq_refl);
    destruct wr; lia.
Qed.

Lemma schedule_lockInv order st st' :
  schedule order st = Some st' → lockInv st → lockInv st'.
Proof.
  revert st. induction order as [|i order IH]; intros st; cbn.
  - by intros [= <-].
  - destruct (step i st) as [st1|] eqn:Hs; [|done]. cbn.
    intros Hrun Hinv. apply (IH st1 Hrun). by apply (step_lockInv i st).
Qed.

Lemma spawn_lockInv d h calls :
  lockInv ({| mu := unlocked; data := d; cache := h |}, spawn calls).
Proof.
  assert (countb holdsR (spawn calls) = 0 ∧ countb holdsW (spawn calls) = 0)%nat
    as [Hr Hw].
  { induction calls as [|c calls [IHr IHw]]; [done|].
    change (spawn (c :: calls))
      with ({| running := c; at_ := Acquire |} :: spawn calls).
    cbn [countb]. by rewrite IHr, IHw. }
  unfold lockInv. cbn [fst snd]. by rewrite Hr, Hw.
Qed.

(** X18. What the lock does give: while a goroutine is inside [Set], between
    [Lock] and [Unlock], no other goroutine is inside [Get], [Has] or [Set],
    whatever the calls and the schedule. *)
Lemma Set_excludes_every_call d h calls order s gs i j g g' :
  schedule order ({| mu := unlocked; data := d; cache := h |}, spawn calls)
    = Some (s, gs) →
  gs !! i = Some g → holdsW g = true →
  gs !! j = Some g' → i ≠ j →
  holdsR g' = false ∧ holdsW g' = false.
Proof.
  intros Hrun Hi Hg Hj Hne.
  pose proof (schedule_lockInv _ _ _ Hrun (spawn_lockInv d h calls)) as [Hr Hw].
  cbn in Hr, Hw.
  pose proof (countb_pos holdsW gs i g Hi Hg) as Hpos.
  destruct (writer (mu s)); [|lia]. destruct Hw as [Hw1 Hr0].
  split.
  - destruct (holdsR g') eqn:Hg'; [|done].
    pose proof (countb_pos holdsR gs j g' Hj Hg'). lia.
  - destruct (holdsW g') eqn:Hg'; [|done].
    by pose proof (countb_one holdsW gs i j g g' Hw1 Hi Hg Hj Hg').
Qed.

(** C9. Two goroutines that call [Get] of the same key, which the mapping
    has and the cache has not, both take the lock for reading, both miss
    the cache, both find the key in the mapping, and stand together before
    the assignment [c.cache[key] = val]: two calls write to the cache at the
    same time, under a lock held for reading only. *)
Theorem two_Gets_fill_the_cache_together :
  ∃ s g0 g1,
    schedule [0; 1; 0; 1; 0; 1]%nat (unread, spawn [CallGet "k"; CallGet "k"])
      = Some (s, [g0; g1])
    ∧ readers (mu s) = 2%nat ∧ writer (mu s) = false
    ∧ holdsR g0 = true ∧ holdsR g1 = true
    ∧ at_ g0 = GetWriteCache (Str "v") ∧ at_ g1 = GetWriteCache (Str "v")
    ∧ mutatesCache g0 = true ∧ mutatesCache g1 = true
    ∧ is_Some (step 0 (s, [g0; g1])) ∧ is_Some (step 1 (s, [g0; g1])).
Proof.
  eexists _, _, _. split; [reflexivity|].
  split_and!; try reflexivity; eexists; reflexivity.
Qed.

End Concurrent_facts.


(** * More properties of the store *)

(** ** The lines of a file and the variables of the environment *)

Section MoreLoader.
Context {W : Type}.
Implicit Types (c : config W) (os : OS).
Import strings strings_facts.

Lemma cut_None sep (s : string) : occurs sep s = false → cut sep s = None.
Proof.
  induction s as [|x s IH]; cbn; [done|].
  intros [Hx Hs]%orb_false_iff. by rewrite Hx, IH.
Qed.

Lemma cut_Some sep (s a b : string) :
  cut sep s = Some (a, b) → s = a +:+ String sep b ∧ occurs sep a = false.
Proof.
  revert a. induction s as [|x s IH]; intros a; cbn; [done|].
  destruct (Ascii.eqb x sep) eqn:Hx.
  - intros [= <- <-]. apply Ascii.eqb_eq in Hx as ->. done.
  - destruct (cut sep s) as [[a' b']|]; [|done]. intros [= <- <-].
    destruct (IH a' eq_refl) as [-> Ha]. cbn. by rewrite Hx, Ha, append_cons.
Qed.

(** X3. A line that is blank, or whose first byte after the leading white
    space is [#], or that has no [=], leaves the store as it is: it is not
    an error and it stores nothing. *)
Theorem loadEnvLine_skips c (text : string) :
  TrimSpace text = EmptyString
  ∨ HasPrefix (TrimSpace text) "#" = true
  ∨ occurs "=" (TrimSpace text) = false →
  loadEnvLine c text = c.
Proof.
  unfold loadEnvLine, SplitN2. intros [->|[->|Hno]].
  - done.
  - by rewrite orb_true_r.
  - rewrite (cut_None _ _ Hno). by destruct (_ || _).
Qed.

(** What a line does to the store, by the key it assigns. *)
Lemma loadEnvLine_lineKey c (text : string) :
  match lineKey text with
  | Some k => ∃ v, loadEnvLine c text = with_data (<[k := Str v]> (data c)) c
  | None => loadEnvLine c text = c
  end.
Proof.
  unfold lineKey, loadEnvLine. destruct (_ || _); [done|].
  destruct (SplitN2 _ _) as [|p0 [|p1 [|? ?]]]; try done. by eexists.
Qed.



Lemma foldl_loadSystemEnv_other c (post : list string) (name : string) :
  (∀ e, e ∈ post → HasPrefix e (name +:+ "=") = false) →
  data (foldl (λ c env,
                 match SplitN2 env "=" with
                 | [p0; p1] => with_data (<[p0 := Str p1]> (data c)) c
                 | _ => c
                 end) c post) !! name
    = data c !! name.
Proof.
  revert c. induction post as [|e post IH]; intros c Hpost; [done|].
  cbn [foldl]. rewrite IH by (intros e' He'; apply Hpost; by right).
  unfold SplitN2. destruct (cut "=" e) as [[p0 p1]|] eqn:Hcut; [|done].
  cbn. rewrite lookup_insert_ne; [done|]. intros ->.
  apply cut_Some in Hcut as [-> _].
  specialize (Hpost _ (list_elem_of_here _ _)).
  change (String "="%char p1) with ("=" +:+ p1) in Hpost.
  by rewrite <- append_assoc, HasPrefix_append in Hpost.
Qed.

(** X5. A variable of the environment is stored under its name with its
    value as it is, spaces and quotes included: what follows the first [=] of
    the last entry for this name is neither trimmed nor unquoted. *)
Theorem loadSystemEnv_keeps_value os c (pre post : list string)
    (name value : string) :
  Environ os = pre ++ (name +:+ String "=" value) :: post →
  occurs "=" name = false →
  (∀ e, e ∈ post → HasPrefix e (name +:+ "=") = false) →
  data (loadSystemEnv os c) !! name = Some (Str value).
Proof.
  intros Henv Hname Hpost. unfold loadSystemEnv. rewrite Henv, foldl_app.
  cbn [foldl]. rewrite foldl_loadSystemEnv_other by done.
  unfold SplitN2. rewrite cut_first by done. cbn. by rewrite lookup_insert_eq.
Qed.

End MoreLoader.

(** X3, on a comment that holds an assignment. *)
Lemma loadEnvLine_skips_comment : loadEnvLine bare "  # A=1" = bare.
Proof. apply (loadEnvLine_skips bare "  # A=1"). right. left. reflexivity. Defined.


(** X5, on a value with spaces and quotes around it. *)
Lemma loadSystemEnv_keeps_value_spaced :
  data (loadSystemEnv spacedOS bare) !! "A"
    = Some (Str (" " +:+ dquote +:+ "x" +:+ dquote +:+ " ")).
Proof.
  apply (loadSystemEnv_keeps_value spacedOS bare [] ["B=1"] "A"
           (" " +:+ dquote +:+ "x" +:+ dquote +:+ " "));
    try reflexivity.
  intros e He.
  apply elem_of_cons in He as [->|He]; [reflexivity|].
  by apply not_elem_of_nil in He.
Defined.

(** ** Reading, writing and reloading *)

Section MoreStore.
Context {W : Type}.
Implicit Types (c : config W) (os : OS) (w : W) (key k : string).
Import strings strings_facts.

(** X1. [GetStringMap(key)] holds under a name exactly what the mapping
    holds under [key], a dot and the name, with the value as it is; the cache
    plays no part, and keys without this prefix, [key] itself among them, give
    no entry. *)
Theorem GetStringMap_entries key c (sub : string) :
  GetStringMap key c !! sub = data c !! (key +:+ "." +:+ sub).
Proof. by rewrite GetStringMap_lookup, append_assoc. Qed.

(** X2. [All] returns the whole mapping, entry for entry, whatever the
    cache holds: a key is in [All()] exactly when [Has] is true of it. *)
Theorem All_is_the_mapping c :
  All c = data c ∧ ∀ key, Has key c = true ↔ is_Some (All c !! key).
Proof.
  rewrite All_data. split; [done|]. intros key. unfold Has.
  destruct (data c !! key); split; first [done | by intros [? ?]].
Qed.

Lemma foldl_loadEnvLine_strings lines c :
  map_Forall (λ _ v, ∃ s, v = Str s) (data c) →
  map_Forall (λ _ v, ∃ s, v = Str s) (data (foldl loadEnvLine c lines)).
Proof.
  revert c. induction lines as [|t lines IH]; intros c Hc; [done|].
  cbn [foldl]. apply IH.
  pose proof (loadEnvLine_lineKey c t) as Ht.
  destruct (lineKey t) as [k'|]; [|by rewrite Ht].
  destruct Ht as [v ->]. cbn. apply map_Forall_insert_2; [by eexists|done].
Qed.

Lemma loadEnvFile_strings os filename c :
  map_Forall (λ _ v, ∃ s, v = Str s) (data c) →
  map_Forall (λ _ v, ∃ s, v = Str s) (data (loadEnvFile os filename c)).
Proof.
  unfold loadEnvFile. destruct (Open os filename); [|done].
  apply foldl_loadEnvLine_strings.
Qed.

Lemma loadSystemEnv_strings os c :
  map_Forall (λ _ v, ∃ s, v = Str s) (data c) →
  map_Forall (λ _ v, ∃ s, v = Str s) (data (loadSystemEnv os c)).
Proof.
  unfold loadSystemEnv. generalize (Environ os) as envs. intros envs. revert c.
  induction envs as [|e envs IH]; intros c Hc; [done|].
  cbn [foldl]. apply IH.
  destruct (SplitN2 e "=") as [|p0 [|p1 [|? ?]]]; try done.
  cbn. apply map_Forall_insert_2; [by eexists|done].
Qed.

(** X6. Every value that [New] stores is a string: the files and the
    environment never give a value of another type. *)
Theorem New_stores_strings os key (v : any) :
  data (New (W := W) os) !! key = Some v → ∃ s, v = Str s.
Proof.
  intros Hk.
  assert (map_Forall (λ _ v, ∃ s, v = Str s) (data (New (W := W) os))) as Hall.
  { unfold New, loadEnvFiles. cbv zeta.
    apply loadSystemEnv_strings. do 3 apply loadEnvFile_strings.
    apply map_Forall_empty. }
  exact (Hall key v Hk).
Qed.

Lemma loadSources_sources ss c w : sources (loadSources ss c w).1.2 = sources c.
Proof.
  revert c w. induction ss as [|s ss IH]; intros c w; cbn; [done|].
  destruct (Load s w) as [[d [e|]] w1]; [done|]. by rewrite IH.
Qed.

Lemma Get_sources key c : sources (snd (Get key c)) = sources c.
Proof.
  unfold Get. destruct (cache c !! key); [done|]. by destruct (data c !! key).
Qed.

(** X7. [Reload] starts from nothing: what [Set] stored and what [Get]
    cached before it make no difference to its result, which depends on the
    registered sources only; and it keeps these sources, error or not. *)
Theorem Reload_discards_Set os c w key (value : any) :
  Reload os (Set_ key value c) w = Reload os c w
  ∧ Reload os (snd (Get key c)) w = Reload os c w
  ∧ sources (Reload os c w).1.2 = sources c.
Proof.
  rewrite !Reload_loaders, Get_sources, loadSources_sources. done.
Qed.

(** X8. Two [Reload]s in a row, over the same files and environment and
    with sources that return the same maps, leave the store that one
    [Reload] leaves. *)
Theorem Reload_twice os c w ds w1 w2 :
  loadedOK (sources c) w ds w1 →
  loadedOK (sources c) w1 ds w2 →
  ∃ c1, Reload os c w = (None, c1, w1) ∧ Reload os c1 w1 = (None, c1, w2).
Proof.
  intros H1 H2. eexists. split; [by apply Reload_ok|].
  by rewrite (Reload_ok os _ w1 ds w2).
Qed.

Lemma loadedOK_snoc (ss : list (ConfigSource W)) s w ds w1 d w2 :
  loadedOK ss w ds w1 → Load s w1 = (d, None, w2) →
  loadedOK (ss ++ [s]) w (ds ++ [d]) w2.
Proof.
  intros Hok Hs. induction Hok as [w|s0 ss w d0 w0 ds w1 Hs0 _ IH].
  - cbn. eapply loadedOK_cons; [done|apply loadedOK_nil].
  - cbn. eapply loadedOK_cons; [done|]. by apply IH.
Qed.

(** X9. [AddSource] changes no value that [Get] returns; after the next
    [Reload], when the sources load, the map of the new source lies over
    every file, variable and earlier source, and [Get] returns its values. *)
Theorem AddSource_then_Reload os c w (s : ConfigSource W) ds w1 d w2 :
  loadedOK (sources c) w ds w1 →
  Load s w1 = (d, None, w2) →
  (∀ key, fst (Get key (AddSource s c)) = fst (Get key c))
  ∧ ∃ c', Reload os (AddSource s c) w = (None, c', w2)
          ∧ data c' = d ∪ merge (baseLayers os ++ ds)
          ∧ ∀ key v, d !! key = Some v → fst (Get key c') = v.
Proof.
  intros Hok Hs. split.
  { intros key. unfold Get, AddSource. cbn.
    destruct (cache c !! key); [done|]. by destruct (data c !! key). }
  pose proof (loadedOK_snoc _ _ _ _ _ _ _ Hok Hs) as Hok'.
  eexists. split; [by apply (Reload_ok os (AddSource s c))|].
  cbn [data]. rewrite app_assoc, merge_snoc. split; [done|].
  intros key v Hd. unfold Get. cbn. rewrite lookup_empty.
  by rewrite (lookup_union_Some_l _ _ _ _ Hd).
Qed.

(** X10. Of two [Set]s of one key the second alone counts: the store is the
    one that the second [Set] alone leaves. *)
Theorem Set_twice key (v1 v2 : any) c :
  Set_ key v2 (Set_ key v1 c) = Set_ key v2 c.
Proof.
  unfold Set_, with_data, with_cache. cbn.
  by rewrite insert_insert_eq, delete_delete_eq.
Qed.

(** X11. [Set] of a key leaves the other keys alone: [Get] and [Has] of
    another key return what they returned, and [Set]s of two keys commute. *)
Theorem Set_other_key key k (v v' : any) c :
  key ≠ k →
  fst (Get k (Set_ key v c)) = fst (Get k c)
  ∧ Has k (Set_ key v c) = Has k c
  ∧ Set_ key v (Set_ k v' c) = Set_ k v' (Set_ key v c).
Proof.
  intros Hne. unfold Get, Has, Set_, with_data, with_cache. cbn.
  rewrite lookup_delete_ne, !lookup_insert_ne by done. split_and!.
  - destruct (cache c !! k); [done|]. by destruct (data c !! k).
  - done.
  - by rewrite insert_insert_ne, delete_delete by done.
Qed.

(** X12. Reading does not disturb reading: a second [Get] of a key returns
    what the first returned and changes nothing, and [Get] of any key returns
    the same before and after a [Get]. *)
Theorem Get_twice key k c :
  Get key (snd (Get key c)) = (fst (Get key c), snd (Get key c))
  ∧ fst (Get k (snd (Get key c))) = fst (Get k c).
Proof.
  unfold Get. destruct (cache c !! key) as [x|] eqn:Hc.
  - cbn. by rewrite Hc.
  - destruct (data c !! key) as [y|] eqn:Hd; cbn.
    + rewrite lookup_insert_eq. split; [done|].
      destruct (decide (key = k)) as [<-|Hne].
      * by rewrite lookup_insert_eq, Hc, Hd.
      * rewrite lookup_insert_ne by done.
        destruct (cache c !! k); [done|]. by destruct (data c !! k).
    + by rewrite Hc, Hd.
Qed.

(** X13. As in [TestCaching]: once [Get] has returned a value for a key,
    a change of [c.data] made behind the methods does not show, and [Get]
    goes on returning the cached value; with the cache replaced by an empty
    one, [Get] returns what the changed mapping holds. *)
Theorem Get_serves_the_cache key c (d' : gmap string any) :
  is_Some (data c !! key) ∨ is_Some (cache c !! key) →
  fst (Get key (with_data d' (snd (Get key c)))) = fst (Get key c)
  ∧ fst (Get key (with_cache ∅ (with_data d' (snd (Get key c)))))
    = default Nil (d' !! key).
Proof.
  intros Hin. split.
  - unfold Get. destruct (cache c !! key) as [x|] eqn:Hc.
    + cbn. by rewrite Hc.
    + destruct Hin as [[y Hd]|[? ?]]; [|done]. rewrite Hd. cbn.
      by rewrite lookup_insert_eq.
  - unfold Get at 1. cbn. rewrite lookup_empty. by destruct (d' !! key).
Qed.

End MoreStore.

(** X6, on the key shared by the three files of [TestLoadEnvFiles]. *)
Lemma New_stores_strings_layered : ∃ s, Str "dev_shared" = Str s.
Proof.
  apply (New_stores_strings (W := unit) layeredOS "SHARED_KEY" (Str "dev_shared")).
  reflexivity.
Defined.

(** X8, on the store with the logging source: the log shows both loads. *)
Lemma Reload_twice_logged :
  ∃ c1, Reload layeredOS withRemote [] = (None, c1, ["remote"])
        ∧ Reload layeredOS c1 ["remote"] = (None, c1, ["remote"; "remote"]).
Proof.
  apply (Reload_twice layeredOS withRemote [] [{["SHARED_KEY" := Int 7]}]).
  - eapply loadedOK_cons; [reflexivity|apply loadedOK_nil].
  - eapply loadedOK_cons; [reflexivity|apply loadedOK_nil].
Defined.

(** X9, on the mock source of [TestAddSource]. *)
Lemma AddSource_then_Reload_mock :
  (∀ key, fst (Get key withMock) = fst (Get key bare))
  ∧ ∃ c', Reload bareOS withMock tt = (None, c', tt)
          ∧ data c' = {["mock_key" := Str "mock_value"]} ∪ merge (baseLayers bareOS ++ [])
          ∧ ∀ key v, ({["mock_key" := Str "mock_value"]} : gmap string any) !! key = Some v →
                     fst (Get key c') = v.
Proof.
  apply (AddSource_then_Reload bareOS bare tt
           (NewMockConfigSource "mock" {["mock_key" := Str "mock_value"]})
           [] tt {["mock_key" := Str "mock_value"]} tt).
  - apply loadedOK_nil.
  - reflexivity.
Defined.

(** X11, on two keys of the store of [TestGetMethods]. *)
Lemma Set_other_key_test :
  fst (Get "int_key" (Set_ "string_key" (Int 1) testStore))
    = fst (Get "int_key" testStore)
  ∧ Has "int_key" (Set_ "string_key" (Int 1) testStore) = Has "int_key" testStore
  ∧ Set_ "string_key" (Int 1) (Set_ "int_key" (Int 2) testStore)
    = Set_ "int_key" (Int 2) (Set_ "string_key" (Int 1) testStore).
Proof.
  apply (Set_other_key "string_key" "int_key" (Int 1) (Int 2) testStore).
  discriminate.
Defined.

(** X13, with the key and the values of [TestCaching]. *)
Lemma Get_serves_the_cache_test :
  fst (Get "test_key"
         (with_data {["test_key" := Str "modified_value"]}
            (snd (Get "test_key" (Set_ "test_key" (Str "test_value") bare)))))
    = fst (Get "test_key" (Set_ "test_key" (Str "test_value") bare))
  ∧ fst (Get "test_key"
           (with_cache ∅
              (with_data {["test_key" := Str "modified_value"]}
                 (snd (Get "test_key" (Set_ "test_key" (Str "test_value") bare))))))
    = default Nil (({["test_key" := Str "modified_value"]} : gmap string any)
                     !! "test_key").
Proof.
  apply (Get_serves_the_cache "test_key"
           (Set_ "test_key" (Str "test_value") bare)
           {["test_key" := Str "modified_value"]}).
  left. eexists. reflexivity.
Defined.

(** ** Decimal numerals *)

Module decimal_facts.
Import strconv.

Lemma horner_acc l acc : Z.pos (Pos.of_uint_acc l acc) = horner l (Z.pos acc).
Proof.
  revert acc. induction l; intros acc; cbn [Pos.of_uint_acc horner]; [done|..];
    rewrite IHl; f_equal; lia.
Qed.

Lemma horner_of_uint d : horner d 0 = Z.of_uint d.
Proof.
  unfold Z.of_uint. induction d; cbn; rewrite ?horner_acc; done.
Qed.

Lemma horner_ge l n : 0 ≤ n → n ≤ horner l n.
Proof.
  revert n. induction l; intros n Hn; cbn [horner]; [lia|..];
    (etrans; [|apply IHl]; lia).
Qed.

Lemma atoiLoop_digits d n :
  atoiLoop (NilEmpty.string_of_uint d) n = (horner d n, None).
Proof. revert n. induction d; intros n; cbn [NilEmpty.string_of_uint horner]; [done|..]; apply IHd. Qed.

Lemma parseUintLoop_step maxVal c k s n :
  isDigit c = true → strings.code c - 48 = k → 0 ≤ k ≤ 9 →
  0 ≤ n → n * 10 + k ≤ maxVal → maxVal < 2 ^ 64 →
  parseUintLoop maxVal (String c s) n = parseUintLoop maxVal s (n * 10 + k).
Proof.
  intros Hc Hk Hk9 Hn Hmax Hlt. cbn [parseUintLoop]. rewrite Hc, Hk. cbv zeta.
  change (maxUint64 / 10 + 1) with 1844674407370955162.
  change (2 ^ 64) with 18446744073709551616 in *.
  rewrite Z.mod_small by lia.
  destruct (Z.geb_spec n 1844674407370955162); [lia|].
  destruct (Z.ltb_spec (n * 10 + k) (n * 10)); [lia|].
  destruct (Z.gtb_spec (n * 10 + k) maxVal); [lia|]. done.
Qed.

Lemma parseUintLoop_digits maxVal d n :
  0 ≤ n → horner d n ≤ maxVal → maxVal < 2 ^ 64 →
  parseUintLoop maxVal (NilEmpty.string_of_uint d) n = (horner d n, None).
Proof.
  revert n.
  induction d; intros n Hn Hmax Hlt; cbn [NilEmpty.string_of_uint horner] in *;
    [done|..];
    match type of Hmax with
    | horner _ (_ * 10 + ?k) ≤ _ =>
        pose proof (horner_ge d (n * 10 + k) ltac:(lia)) as Hge;
        rewrite (parseUintLoop_step maxVal _ k) by (reflexivity || lia);
        apply IHd; [lia|done|done]
    end.
Qed.

Lemma string_of_uint_digit d :
  d ≠ Decimal.Nil →
  ∃ c rest, NilEmpty.string_of_uint d = String c rest ∧ isDigit c = true.
Proof. destruct d; [done|..]; intros _; eexists _, _; split; reflexivity. Qed.

Lemma isDigit_not_sign c :
  isDigit c = true → Ascii.eqb c "-" = false ∧ Ascii.eqb c "+" = false.
Proof.
  intros Hc. split; apply Ascii.eqb_neq; intros ->; discriminate.
Qed.

Lemma ParseInt10_digits d bitSize :
  (if bitSize =? 0 then IntSize else bitSize) = 64 →
  d ≠ Decimal.Nil → horner d 0 < 2 ^ 63 →
  ParseInt10 (NilEmpty.string_of_uint d) bitSize = (horner d 0, None).
Proof.
  intros Hbits Hd Hv. destruct (string_of_uint_digit d Hd) as (c & rest & Hs & Hc).
  destruct (isDigit_not_sign c Hc) as [Hm Hp].
  pose proof (horner_ge d 0 ltac:(lia)) as H0.
  unfold ParseInt10. rewrite Hs, Hm, Hp. cbn [orb negb andb]. rewrite <- Hs.
  unfold ParseUint10. rewrite Hs at 1. rewrite Hbits.
  rewrite parseUintLoop_digits by (done || lia).
  change (2 ^ (64 - 1)) with (2 ^ 63).
  destruct (Z.geb_spec (horner d 0) (2 ^ 63)); [lia|]. done.
Qed.

Lemma ParseInt10_neg_digits d bitSize :
  (if bitSize =? 0 then IntSize else bitSize) = 64 →
  d ≠ Decimal.Nil → horner d 0 ≤ 2 ^ 63 →
  ParseInt10 (String "-" (NilEmpty.string_of_uint d)) bitSize
    = (- horner d 0, None).
Proof.
  intros Hbits Hd Hv. destruct (string_of_uint_digit d Hd) as (c & rest & Hs & Hc).
  pose proof (horner_ge d 0 ltac:(lia)) as H0.
  unfold ParseInt10. cbv beta iota zeta. rewrite Ascii.eqb_refl.
  rewrite orb_true_r. cbn [negb andb].
  unfold ParseUint10. rewrite Hs at 1. rewrite Hbits.
  rewrite parseUintLoop_digits by (done || lia).
  change (2 ^ (64 - 1)) with (2 ^ 63).
  destruct (Z.gtb_spec (horner d 0) (2 ^ 63)); [lia|]. done.
Qed.

Lemma Atoi_digits d :
  d ≠ Decimal.Nil → horner d 0 < 2 ^ 63 →
  Atoi (NilEmpty.string_of_uint d) = (horner d 0, None).
Proof.
  intros Hd Hv. unfold Atoi.
  destruct (_ || _); [|by apply ParseInt10_digits].
  destruct (string_of_uint_digit d Hd) as (c & rest & Hs & Hc).
  destruct (isDigit_not_sign c Hc) as [Hm Hp].
  rewrite Hs, Hm, Hp. cbn [orb andb]. rewrite <- Hs, atoiLoop_digits. done.
Qed.

Lemma Atoi_neg_digits d :
  d ≠ Decimal.Nil → horner d 0 ≤ 2 ^ 63 →
  Atoi (String "-" (NilEmpty.string_of_uint d)) = (- horner d 0, None).
Proof.
  intros Hd Hv. unfold Atoi.
  destruct (_ || _); [|by apply ParseInt10_neg_digits].
  destruct (string_of_uint_digit d Hd) as (c & rest & Hs & Hc).
  assert ((Z.of_nat (String.length (NilEmpty.string_of_uint d)) <? 1) = false)
    as Hlen by (rewrite Hs; cbn [String.length]; apply Z.ltb_ge; lia).
  cbv beta iota zeta. rewrite Ascii.eqb_refl. cbn [orb andb].
  rewrite Hlen, atoiLoop_digits. done.
Qed.

Lemma string_of_uint_nonnil d :
  d ≠ Decimal.Nil → NilZero.string_of_uint d = NilEmpty.string_of_uint d.
Proof. by destruct d. Qed.

(** A numeral of an int64 parses to the number. *)
Lemma parse_string_of_int i :
  - 2 ^ 63 ≤ i ≤ 2 ^ 63 - 1 →
  Atoi (NilZero.string_of_int (Z.to_int i)) = (i, None)
  ∧ ParseInt10 (NilZero.string_of_int (Z.to_int i)) 64 = (i, None).
Proof.
  intros Hi. pose proof (DecimalZ.of_to i) as Hv.
  destruct i as [|p|p]; [split; reflexivity|..]; cbn [Z.to_int] in *;
    pose proof (Unsigned.to_uint_nonnil p) as Hnil;
    unfold Z.of_int in Hv; rewrite <- horner_of_uint in Hv;
    unfold NilZero.string_of_int; rewrite string_of_uint_nonnil by done.
  - rewrite Atoi_digits, ParseInt10_digits by (done || lia). by rewrite Hv.
  - rewrite Atoi_neg_digits, ParseInt10_neg_digits by (done || lia).
    by rewrite Hv.
Qed.






End decimal_facts.

(** ** Lists of strings *)

Module slice_facts.
Import strings strings_facts.

Lemma occurs_rev_app x (s1 s2 : string) :
  occurs x (String.rev_app s1 s2) = occurs x s1 || occurs x s2.
Proof.
  revert s2. induction s1 as [|c s1 IH]; intros s2; [done|].
  cbn. rewrite IH. cbn. by destruct (Ascii.eqb c x), (occurs x s1), (occurs x s2).
Qed.

Lemma occurs_rev x (s : string) : occurs x (String.rev s) = occurs x s.
Proof. unfold String.rev. rewrite occurs_rev_app. cbn. by rewrite orb_false_r. Qed.

Lemma occurs_drop x n (s : string) :
  occurs x s = false → occurs x (drop n s) = false.
Proof.
  revert s. induction n as [|n IH]; intros [|c s]; cbn; try done.
  intros [_ Hs]%orb_false_iff. by apply IH.
Qed.

Lemma occurs_trimLeftSpace x fuel toks (s : string) :
  occurs x s = false → occurs x (trimLeftSpace fuel toks s) = false.
Proof.
  revert s. induction fuel as [|fuel IH]; intros s Hs; cbn [trimLeftSpace]; [done|].
  destruct (spaceWidth toks s); [done|]. by apply IH, occurs_drop.
Qed.

Lemma occurs_TrimSpace x (s : string) :
  occurs x s = false → occurs x (TrimSpace s) = false.
Proof.
  intros Hs. unfold TrimSpace. rewrite occurs_rev.
  apply occurs_trimLeftSpace. rewrite occurs_rev. by apply occurs_trimLeftSpace.
Qed.

Lemma Split_parts sep (s p : string) : p ∈ Split s sep → occurs sep p = false.
Proof.
  revert p. induction s as [|c s IH]; intros p; cbn.
  - by intros ->%list_elem_of_singleton.
  - destruct (Ascii.eqb c sep) eqn:Hc.
    + intros [->|Hp]%elem_of_cons; [done|by apply IH].
    + destruct (Split s sep) as [|p0 ps].
      * intros ->%list_elem_of_singleton. cbn. by rewrite Hc.
      * intros [->|Hp]%elem_of_cons.
        -- cbn. rewrite Hc. apply IH. by left.
        -- apply IH. by right.
Qed.

Lemma foldl_keep_parts (parts acc : list string) :
  foldl (λ result part,
           let trimmed := TrimSpace part in
           if String.eqb trimmed EmptyString then result
           else result ++ [trimmed]) acc parts
  = acc ++ filter (λ p, p ≠ EmptyString) (TrimSpace <$> parts).
Proof.
  revert acc. induction parts as [|p parts IH]; intros acc; cbn [foldl fmap list_fmap].
  - by rewrite filter_nil, app_nil_r.
  - rewrite IH. cbv zeta. destruct (String.eqb_spec (TrimSpace p) EmptyString) as [He|Hne].
    + by rewrite filter_cons_False by (intros Hn; by apply Hn).
    + by rewrite filter_cons_True, <- app_assoc by done.
Qed.

End slice_facts.

(** ** Typed getters *)

Section MoreGetters.
Context {W : Type}.
Implicit Types (c : config W) (key : string).

Lemma GetString_Set key (v : any) c :
  fst (GetString key (Set_ key v c))
    = match v with Nil => EmptyString | _ => Sprintv v end.
Proof. unfold GetString. rewrite Get_Set. by destruct v. Qed.

(** X14. [GetStringSlice] returns, in their order, the parts of the string
    between commas, each trimmed of white space, without those that are empty
    once trimmed: no element is empty and none holds a comma. *)
Theorem GetStringSlice_parts key c :
  fst (GetStringSlice key c)
    = filter (λ p, p ≠ EmptyString)
        (strings.TrimSpace <$> strings.Split (fst (GetString key c)) ",")
  ∧ Forall (λ p, p ≠ EmptyString ∧ strings.occurs "," p = false)
      (fst (GetStringSlice key c)).
Proof.
  assert (fst (GetStringSlice key c)
            = filter (λ p, p ≠ EmptyString)
                (strings.TrimSpace <$> strings.Split (fst (GetString key c)) ","))
    as Heq.
  { unfold GetStringSlice. destruct (GetString key c) as [s c']. cbn [fst].
    destruct (String.eqb_spec s EmptyString) as [->|_]; [done|].
    cbn [fst]. by rewrite slice_facts.foldl_keep_parts. }
  split; [exact Heq|]. rewrite Heq. apply Forall_forall. intros p Hp.
  apply list_elem_of_filter in Hp as [Hne Hp]. split; [done|].
  apply list_elem_of_fmap in Hp as (q & -> & Hq).
  by apply slice_facts.occurs_TrimSpace, (slice_facts.Split_parts _ _ _ Hq).
Qed.

(** X15. A boolean stored by [Set] reads back through [GetBool]: it is
    printed as [true] or [false], which [ParseBool] accepts. *)
Theorem GetBool_of_bool key (b : bool) c :
  fst (GetBool key (Set_ key (Bool b) c)) = b
  ∧ fst (GetString key (Set_ key (Bool b) c)) = (if b then "true" else "false").
Proof.
  split; [|by rewrite GetString_Set].
  unfold GetBool. pose proof (GetString_Set key (Bool b) c) as Hs.
  destruct (GetString key (Set_ key (Bool b) c)) as [s c']. cbn [fst] in Hs.
  subst s. by destruct b.
Qed.

(** X16. A number of the range of [int64] reads back through [GetInt] and
    [GetInt64], whether [Set] stored it as a number, which [GetString] prints
    in decimal, or as its decimal numeral: no numeral of the range is
    rejected or read as another number. *)
Theorem GetInt_of_int key (i : Z) c :
  inInt64 i →
  fst (GetInt key (Set_ key (Int i) c)) = i
  ∧ fst (GetInt64 key (Set_ key (Int i) c)) = i
  ∧ fst (GetInt key (Set_ key (Str (Sprintv (Int i))) c)) = i
  ∧ fst (GetInt64 key (Set_ key (Str (Sprintv (Int i))) c)) = i.
Proof.
  intros Hi. destruct (decimal_facts.parse_string_of_int i Hi) as [Ha Hp].
  assert (String.eqb (Sprintv (Int i)) EmptyString = false) as Hne.
  { destruct (String.eqb_spec (Sprintv (Int i)) EmptyString) as [He|]; [|done].
    cbn [Sprintv] in He. rewrite He in Ha. destruct i; discriminate. }
  unfold GetInt, GetInt64.
  pose proof (GetString_Set key (Int i) c) as H1.
  pose proof (GetString_Set key (Str (Sprintv (Int i))) c) as H2.
  destruct (GetString key (Set_ key (Int i) c)) as [s1 c1].
  destruct (GetString key (Set_ key (Str _) c)) as [s2 c2].
  cbn [fst Sprintv] in *. subst s1 s2. cbn [Sprintv] in Hne.
  by rewrite Hne, Ha, Hp.
Qed.


End MoreGetters.

(** X16, on the number -42 and the store of [TestGetMethods]. *)
Lemma GetInt_of_int_test :
  fst (GetInt "int_key" (Set_ "int_key" (Int (-42)) testStore)) = -42
  ∧ fst (GetInt64 "int_key" (Set_ "int_key" (Int (-42)) testStore)) = -42
  ∧ fst (GetInt "int_key" (Set_ "int_key" (Str (Sprintv (Int (-42)))) testStore))
    = -42
  ∧ fst (GetInt64 "int_key" (Set_ "int_key" (Str (Sprintv (Int (-42)))) testStore))
    = -42.
Proof.
  apply (GetInt_of_int "int_key" (-42) testStore). unfold inInt64. lia.
Defined.

(** ** Goroutines: what the lock guarantees *)

Module Concurrent_more.
Import Concurrent Concurrent_facts.

Lemma countb_none f gs :
  (∀ g, g ∈ gs → f g = false) → countb f gs = 0%nat.
Proof.
  induction gs as [|g gs IH]; intros Hall; [done|]. cbn [countb].
  rewrite (Hall g) by (by left). rewrite IH; [done|].
  intros g' Hg'. apply Hall. by right.
Qed.

(** X19. The lock does not leak: in whatever order the steps of the calls
    are taken, once no goroutine is between the acquisition and the deferred
    release, no reader and no writer is left on the lock. *)
Theorem lock_free_when_idle d h calls order s gs :
  schedule order ({| mu := unlocked; data := d; cache := h |}, spawn calls)
    = Some (s, gs) →
  (∀ g, g ∈ gs → holdsR g = false ∧ holdsW g = false) →
  mu s = unlocked.
Proof.
  intros Hrun Hidle.
  pose proof (schedule_lockInv _ _ _ Hrun (spawn_lockInv d h calls)) as [Hr Hw].
  cbn [fst snd] in Hr, Hw.
  rewrite (countb_none holdsR gs) in Hr by (intros g Hg; by apply Hidle).
  rewrite (countb_none holdsW gs) in Hw by (intros g Hg; by apply Hidle).
  destruct (mu s) as [wr rd]. cbn in *. subst rd.
  destruct wr; [by destruct Hw|done].
Qed.

(** X18, one step into a [Set], with a [Get] waiting. *)
Lemma Set_excludes_every_call_waiting :
  holdsR {| running := CallGet "k"; at_ := Acquire |} = false
  ∧ holdsW {| running := CallGet "k"; at_ := Acquire |} = false.
Proof.
  apply (Set_excludes_every_call ∅ ∅ [CallSet "k" (Str "v"); CallGet "k"] [0%nat]
           {| mu := {| writer := true; readers := 0 |}; data := ∅; cache := ∅ |}
           [ {| running := CallSet "k" (Str "v"); at_ := SetWriteData |};
             {| running := CallGet "k"; at_ := Acquire |} ]
           0%nat 1%nat
           {| running := CallSet "k" (Str "v"); at_ := SetWriteData |}
           {| running := CallGet "k"; at_ := Acquire |});
    (reflexivity || discriminate).
Defined.

(** X19, after a [Set] and a [Get] have run to their ends. *)
Lemma lock_free_when_idle_done :
  mu {| mu := unlocked; data := {["k" := Str "v"]}; cache := {["k" := Str "v"]} |}
    = unlocked.
Proof.
  apply (lock_free_when_idle ∅ ∅ [CallSet "k" (Str "v"); CallGet "k"]
           [0; 0; 0; 0; 1; 1; 1; 1; 1]%nat
           {| mu := unlocked; data := {["k" := Str "v"]};
              cache := {["k" := Str "v"]} |}
           [ {| running := CallSet "k" (Str "v"); at_ := Returned Nil |};
             {| running := CallGet "k"; at_ := Returned (Str "v") |} ]).
  - reflexivity.
  - intros g Hg.
    apply elem_of_cons in Hg as [->|Hg]; [by split|].
    apply elem_of_cons in Hg as [->|Hg]; [by split|].
    by apply not_elem_of_nil in Hg.
Defined.

End Concurrent_more.

(** ** Sequences of calls *)

Section MoreCalls.
Context `{GoLib} {W : Type}.
Implicit Types (c : config W) (os : OS) (w : W) (o : op (W := W)) (key : string).

Lemma New_eq os :
  New (W := W) os
    = {| data := merge (baseLayers os); sources := []; cache := ∅ |}.
Proof.
  unfold New. cbv zeta.
  destruct (loaders_data os
              ({| data := ∅; sources := []; cache := ∅ |} : config W) eq_refl)
    as (D & S & C).
  destruct (loadSystemEnv os _) as [d s h]. cbn in D, S, C. by subst.
Qed.

(** X20. On a store without sources, [Reload] cannot fail and leaves the
    store that [New] builds from the same files and environment, whatever
    the store held. *)
Theorem Reload_without_sources os c w :
  sources c = [] → Reload os c w = (None, New os, w).
Proof. intros Hs. by rewrite Reload_loaders, New_eq, Hs. Qed.

(** X21. In a store reached from [New] by calls of the methods, a key of
    which [Has] is false reads as absent through every getter: nothing stale
    is served from the cache for a key that the mapping lost. *)
Theorem Has_false_reads_zero os (ops : list op) w key :
  Has key (run ops (New os, w)).1 = false →
  fst (Get key (run ops (New os, w)).1) = Nil
  ∧ fst (GetString key (run ops (New os, w)).1) = EmptyString
  ∧ fst (GetInt key (run ops (New os, w)).1) = 0
  ∧ fst (GetInt64 key (run ops (New os, w)).1) = 0
  ∧ fst (GetFloat64 key (run ops (New os, w)).1) = float64_zero
  ∧ fst (GetBool key (run ops (New os, w)).1) = false
  ∧ fst (GetDuration key (run ops (New os, w)).1) = 0
  ∧ fst (GetStringSlice key (run ops (New os, w)).1) = [].
Proof.
  intros Hhas.
  assert (coherent (run ops (New os, w)).1) as Hc.
  { apply run_coherent. unfold coherent. rewrite New_cache.
    apply map_empty_subseteq. }
  assert (fst (Get key (run ops (New os, w)).1) = Nil) as Hnil.
  { rewrite (Get_coherent key _ Hc). unfold Has in Hhas.
    by destruct (data _ !! key). }
  split; [exact Hnil|]. by apply Get_Nil_getters.
Qed.

(** X22. The getters, [Has] and [All] change neither the mapping nor the
    registered sources nor the world of the sources: only the cache may
    differ after them. *)
Theorem reads_keep_the_mapping o c w :
  readOnly o = true →
  data (exec o (c, w)).1 = data c
  ∧ sources (exec o (c, w)).1 = sources c
  ∧ (exec o (c, w)).2 = w.
Proof.
  intros Hro. destruct (reads o) as [key|] eqn:Hr.
  - rewrite (exec_reads o key c w Hr). cbn [fst snd]. unfold Get.
    destruct (cache c !! key); [done|]. by destruct (data c !! key).
  - by destruct o.
Qed.

End MoreCalls.

(** X20, on the store of [TestGetMethods], which has no source. *)
Lemma Reload_without_sources_test :
  Reload layeredOS testStore tt = (None, New layeredOS, tt).
Proof. apply (Reload_without_sources layeredOS testStore tt). reflexivity. Defined.

(** X21, on a key that was set, read, and lost in a [Reload]. *)
Lemma Has_false_reads_zero_lost :
  fst (Get "a" (run (H := rejectingLib)
                  [OpSet "a" (Int 1); OpGet "a"; OpReload bareOS]
                  (New bareOS, tt)).1) = Nil
  ∧ fst (GetString "a" (run (H := rejectingLib)
                  [OpSet "a" (Int 1); OpGet "a"; OpReload bareOS]
                  (New bareOS, tt)).1) = EmptyString
  ∧ fst (GetInt "a" (run (H := rejectingLib)
                  [OpSet "a" (Int 1); OpGet "a"; OpReload bareOS]
                  (New bareOS, tt)).1) = 0
  ∧ fst (GetInt64 "a" (run (H := rejectingLib)
                  [OpSet "a" (Int 1); OpGet "a"; OpReload bareOS]
                  (New bareOS, tt)).1) = 0
  ∧ fst (GetFloat64 (H := rejectingLib) "a" (run (H := rejectingLib)
                  [OpSet "a" (Int 1); OpGet "a"; OpReload bareOS]
                  (New bareOS, tt)).1) = 0
  ∧ fst (GetBool "a" (run (H := rejectingLib)
                  [OpSet "a" (Int 1); OpGet "a"; OpReload bareOS]
                  (New bareOS, tt)).1) = false
  ∧ fst (GetDuration (H := rejectingLib) "a" (run (H := rejectingLib)
                  [OpSet "a" (Int 1); OpGet "a"; OpReload bareOS]
                  (New bareOS, tt)).1) = 0
  ∧ fst (GetStringSlice "a" (run (H := rejectingLib)
                  [OpSet "a" (Int 1); OpGet "a"; OpReload bareOS]
                  (New bareOS, tt)).1) = [].
Proof.
  apply (Has_false_reads_zero (H := rejectingLib) bareOS
           [OpSet "a" (Int 1); OpGet "a"; OpReload bareOS] tt "a").
  reflexivity.
Defined.

(** X22, on [GetInt] of a key of the store of [TestGetMethods]. *)
Lemma reads_keep_the_mapping_test :
  data (exec (H := rejectingLib) (OpGetInt "int_key") (testStore, tt)).1
    = data testStore
  ∧ sources (exec (H := rejectingLib) (OpGetInt "int_key") (testStore, tt)).1
    = sources testStore
  ∧ (exec (H := rejectingLib) (OpGetInt "int_key") (testStore, tt)).2 = tt.
Proof.
  apply (reads_keep_the_mapping (H := rejectingLib) (OpGetInt "int_key")
           testStore tt).
  reflexivity.
Defined.
